(** * browserslist-useragent: the matching pipeline of [src/index.ts]

    A shallow embedding of [src/index.ts] and the properties its
    specification states about it.  JavaScript strings are [string]s,
    [undefined]/[null] are constructors of [jsval], code that can throw
    returns an [outcome], and the one unbounded loop of the file
    ([generateSemversInRange]) takes a step budget. *)

From Stdlib Require Import String Ascii List NArith ZArith Bool Lia.
From Stdlib Require Import DecimalString DecimalN.
From Stdlib Require DecimalFacts DecimalPos.
Import ListNotations.

Open Scope string_scope.
Open Scope list_scope.

(* ================================================================= *)
(** ** JavaScript values and string primitives *)

Module JS.

(** A value of type [string | undefined | null]. *)
Inductive jsval : Type :=
| JUndefined
| JNull
| JStr (s : string).

(** [!v] for such a value: [undefined], [null] and the empty string
    are falsy. *)
Definition falsy (v : jsval) : bool :=
  match v with
  | JUndefined | JNull => true
  | JStr s => s =? EmptyString
  end.

(** An optional boolean property ([flag?: boolean]); [None] is an
    absent property. *)
Definition truthy (b : option bool) : bool :=
  match b with
  | Some true => true
  | _ => false
  end.

Inductive js_error : Type :=
| TypeError (msg : string).

(** Result of evaluating code that may throw, or that runs a loop
    under a step budget. *)
Inductive outcome (A : Type) : Type :=
| Ok (a : A)
| Throw (e : js_error)
| OutOfFuel.

Arguments Ok {A} a.
Arguments Throw {A} e.
Arguments OutOfFuel {A}.

Definition bind {A B} (m : outcome A) (k : A -> outcome B) : outcome B :=
  match m with
  | Ok a => k a
  | Throw e => Throw e
  | OutOfFuel => OutOfFuel
  end.

Definition is_ok {A} (m : outcome A) : bool :=
  match m with
  | Ok _ => true
  | _ => false
  end.

(** [s.split(sep)] for a one-character separator: every piece, in
    order; the result is never empty (the empty string splits into
    one empty piece). *)
Fixpoint split (sep : ascii) (s : string) : list string :=
  match s with
  | EmptyString => [EmptyString]
  | String c rest =>
      if Ascii.eqb c sep then EmptyString :: split sep rest
      else match split sep rest with
           | piece :: more => String c piece :: more
           | [] => [String c EmptyString]
           end
  end.

(** [arr[i]] of an array of strings: [undefined] out of range. *)
Definition at_index (arr : list string) (i : nat) : jsval :=
  match nth_error arr i with
  | Some s => JStr s
  | None => JUndefined
  end.

(** [s.indexOf(c)] for a one-character needle: [-1] when absent. *)
Fixpoint indexOf (c : ascii) (s : string) : Z :=
  match s with
  | EmptyString => (-1)%Z
  | String d rest =>
      if Ascii.eqb d c then 0%Z
      else let i := indexOf c rest in
           if (i <? 0)%Z then (-1)%Z else (i + 1)%Z
  end.

(** [s.slice(n)]: [s] without its first [n] characters. *)
Fixpoint skip (n : nat) (s : string) : string :=
  match n, s with
  | O, _ => s
  | S _, EmptyString => EmptyString
  | S n', String _ rest => skip n' rest
  end.

(** Position and text of the leftmost match of the regular expression
    [(k1|k2|...|kn)] whose alternatives are literal strings: the
    first position where some alternative matches and, there, the
    first alternative in the order written. *)
Definition first_prefix (keys : list string) (s : string) : option string :=
  find (fun k => prefix k s) keys.

Fixpoint match_alternation (keys : list string) (s : string)
  : option (string * string * string) :=
  match first_prefix keys s with
  | Some k => Some (EmptyString, k, skip (String.length k) s)
  | None =>
      match s with
      | EmptyString => None
      | String c rest =>
          match match_alternation keys rest with
          | Some (pre, k, post) => Some (String c pre, k, post)
          | None => None
          end
      end
  end.

(** [s.replace(pat, rep)] with a string pattern and a replacement
    that holds no [$]: the first occurrence of [pat] is replaced,
    nothing else changes; [s] is returned when [pat] does not occur. *)
Fixpoint replace (s pat rep : string) : string :=
  if prefix pat s then rep ++ skip (String.length pat) s
  else match s with
       | EmptyString => EmptyString
       | String c rest => String c (replace rest pat rep)
       end.

Definition lower_ascii (c : ascii) : ascii :=
  let n := nat_of_ascii c in
  if (65 <=? n)%nat && (n <=? 90)%nat then ascii_of_nat (n + 32) else c.

(** The letters A to Z lowered and every other character kept: what
    [toLowerCase()] returns on ASCII text, and [toLocaleLowerCase()]
    too in a locale without special casing.  The full case mappings
    are functions of the host, see [Host]; the sample hosts use this
    one. *)
Fixpoint ascii_lowercase (s : string) : string :=
  match s with
  | EmptyString => EmptyString
  | String c rest => String (lower_ascii c) (ascii_lowercase rest)
  end.

(** The property names an object literal inherits from
    [Object.prototype]: [key in obj] holds for them as it does for the
    own keys of [obj], and [obj[key]] is then a function (an object for
    [__proto__]), not a string. *)
Definition object_prototype_names : list string :=
  ["constructor"; "hasOwnProperty"; "isPrototypeOf"; "propertyIsEnumerable";
   "toLocaleString"; "toString"; "valueOf"; "__proto__"; "__defineGetter__";
   "__defineSetter__"; "__lookupGetter__"; "__lookupSetter__"].

Definition inherited (key : string) : bool :=
  existsb (String.eqb key) object_prototype_names.

End JS.

Import JS.

Notation "x <- m ;; k" := (bind m (fun x => k))
  (at level 61, m at next level, right associativity).

(* ================================================================= *)
(** ** The semver engine *)

Module Semver.

Local Open Scope N_scope.

(** Modelled from the spec: the semver engine is the [semver] package,
    a dependency that is not under [src/].  Section 6 of the
    specification names the four capabilities used ([coerce], [gte],
    [satisfies], [inc]); they are modelled here on the strings this
    program passes to them, versions of the plain form
    [major.minor.patch] and the ranges [v], [~v] and [^v].  Version
    components are exact naturals; the package rejects a component
    above [MAX_SAFE_INTEGER]. *)
Record SemVer : Type := mkSemVer { major : N; minor : N; patch : N }.

Definition MAX_SAFE_INTEGER : N := 9007199254740991.
Definition MAX_SAFE_COMPONENT_LENGTH : nat := 16.

(** Decimal rendering of a number, as in a template literal. *)
Definition dec (n : N) : string := NilEmpty.string_of_uint (N.to_uint n).

(** Numeric value of a run of decimal digits ([+m[i]]). *)
Definition num (s : string) : N :=
  match NilEmpty.uint_of_string s with
  | Some d => N.of_uint d
  | None => 0
  end.

(** The [version] property: [`${major}.${minor}.${patch}`]. *)
Definition format (v : SemVer) : string :=
  dec (major v) ++ "." ++ dec (minor v) ++ "." ++ dec (patch v).

Definition is_digit (c : ascii) : bool :=
  let n := nat_of_ascii c in ((48 <=? n) && (n <=? 57))%nat.

(** The longest run of digits at the start of a string, and the rest. *)
Fixpoint span_digits (s : string) : string * string :=
  match s with
  | String c rest =>
      if is_digit c then
        let (run, after) := span_digits rest in (String c run, after)
      else (EmptyString, s)
  | EmptyString => (EmptyString, EmptyString)
  end.

Definition component_length_ok (run : string) : bool :=
  ((1 <=? String.length run) && (String.length run <=? MAX_SAFE_COMPONENT_LENGTH))%nat.

(** The optional group [(?:\.(\d{1,16}))?] followed by something that
    is not a digit: a dot and a whole run of 1 to 16 digits. *)
Definition dot_component (s : string) : option (string * string) :=
  match s with
  | String "."%char rest =>
      let (run, after) := span_digits rest in
      if component_length_ok run then Some (run, after) else None
  | _ => None
  end.

(** Groups 2, 3 and 4 of the coercion pattern when the major run
    starts here; an absent group reads as ["0"]. *)
Definition coerce_groups (run after : string) : string * string * string :=
  match dot_component after with
  | Some (mi, after') =>
      match dot_component after' with
      | Some (pa, _) => (run, mi, pa)
      | None => (run, mi, "0"%string)
      end
  | None => (run, "0"%string, "0"%string)
  end.

(** Leftmost match of
    [(^|[^\d])(\d{1,16})(?:\.(\d{1,16}))?(?:\.(\d{1,16}))?(?:$|[^\d])]:
    the first maximal run of digits that is 1 to 16 digits long.
    [inside] tells that the previous character is a digit, where no
    match can start. *)
Fixpoint coerce_match (inside : bool) (s : string)
  : option (string * string * string) :=
  match s with
  | EmptyString => None
  | String c rest =>
      if is_digit c then
        if inside then coerce_match true rest
        else
          let (run, after) := span_digits s in
          if component_length_ok run then Some (coerce_groups run after)
          else coerce_match true rest
      else coerce_match false rest
  end.

Definition safe (v : SemVer) : bool :=
  (major v <=? MAX_SAFE_INTEGER) && (minor v <=? MAX_SAFE_INTEGER)
  && (patch v <=? MAX_SAFE_INTEGER).

(** Modelled from the spec: [semver.coerce(version, { loose: true })]
    on a string ([coerce(token, {loose: true}) -> Version | null] in
    section 6); [None] is [null].  A coerced version whose component
    exceeds [MAX_SAFE_INTEGER] is rejected. *)
Definition coerce (version : string) : option SemVer :=
  match coerce_match false version with
  | Some (ma, mi, pa) =>
      let v := mkSemVer (num ma) (num mi) (num pa) in
      if safe v then Some v else None
  | None => None
  end.

(** Modelled from the spec: [new SemVer(version)] in strict mode, the
    parser behind [gte], [inc] and [satisfies], on a plain version:
    three numeric identifiers without leading zeros, which is to say a
    string equal to the rendering of its own components.  It throws a
    [TypeError] on anything else. *)
Definition parse (version : string) : outcome SemVer :=
  match split "."%char version with
  | [ma; mi; pa] =>
      let v := mkSemVer (num ma) (num mi) (num pa) in
      if (format v =? version)%string then
        if MAX_SAFE_INTEGER <? major v then Throw (TypeError "Invalid major version")
        else if MAX_SAFE_INTEGER <? minor v then Throw (TypeError "Invalid minor version")
        else if MAX_SAFE_INTEGER <? patch v then Throw (TypeError "Invalid patch version")
        else Ok v
      else Throw (TypeError "Invalid Version")
  | _ => Throw (TypeError "Invalid Version")
  end.

(** [compareMain]: major, then minor, then patch. *)
Definition compare_main (a b : SemVer) : comparison :=
  match major a ?= major b with
  | Eq => match minor a ?= minor b with
          | Eq => patch a ?= patch b
          | c => c
          end
  | c => c
  end.

Definition geb (a b : SemVer) : bool :=
  match compare_main a b with
  | Lt => false
  | _ => true
  end.

Definition ltb (a b : SemVer) : bool :=
  match compare_main a b with
  | Lt => true
  | _ => false
  end.

(** Modelled from the spec: [semver.gte(a, b)] ([gte(a,b) -> boolean]
    in section 6); both arguments are parsed, which throws on an
    invalid version. *)
Definition gte (a b : string) : outcome bool :=
  va <- parse a ;;
  vb <- parse b ;;
  Ok (geb va vb).

(** Modelled from the spec: [semver.inc(version, 'minor')]
    ([increment(version, "minor") -> string] in section 6): the next
    minor version with patch 0; the package catches a parse error and
    returns [null]. *)
Definition inc_minor (version : string) : option string :=
  match parse version with
  | Ok v => Some (format (mkSemVer (major v) (minor v + 1) 0))
  | _ => None
  end.

(** A comparator of a range: [=v], [>=v], or [<v-0], which a version
    without prerelease tag satisfies when it is below [v]. *)
Inductive comparator : Type :=
| CEq (v : SemVer)
| CGe (v : SemVer)
| CLt (v : SemVer).

Definition test (c : comparator) (v : SemVer) : bool :=
  match c with
  | CEq w => match compare_main v w with Eq => true | _ => false end
  | CGe w => geb v w
  | CLt w => ltb v w
  end.

(** Desugaring of [~M.m.p] and [^M.m.p]. *)
Definition tilde (v : SemVer) : list comparator :=
  [CGe v; CLt (mkSemVer (major v) (minor v + 1) 0)].

Definition caret (v : SemVer) : list comparator :=
  if major v =? 0 then
    if minor v =? 0 then [CGe v; CLt (mkSemVer 0 0 (patch v + 1))]
    else [CGe v; CLt (mkSemVer 0 (minor v + 1) 0)]
  else [CGe v; CLt (mkSemVer (major v + 1) 0 0)].

Definition bound (c : comparator) : SemVer :=
  match c with CEq v | CGe v | CLt v => v end.

(** [new Range(range)] for the three shapes the program builds; every
    bound must be a valid version. *)
Definition desugar (range : string) : option (list comparator) :=
  match range with
  | String c rest =>
      if Ascii.eqb c "~" then
        match parse rest with Ok v => Some (tilde v) | _ => None end
      else if Ascii.eqb c "^" then
        match parse rest with Ok v => Some (caret v) | _ => None end
      else
        match parse range with Ok v => Some [CEq v] | _ => None end
  | EmptyString => None
  end.

Definition parse_range (range : string) : option (list comparator) :=
  match desugar range with
  | Some cs => if forallb (fun c => safe (bound c)) cs then Some cs else None
  | None => None
  end.

(** Modelled from the spec: [semver.satisfies(version, range)]
    ([satisfies(version, range) -> boolean] in section 6); [false]
    when either argument is invalid. *)
Definition satisfies (version range : string) : bool :=
  match parse_range range, parse version with
  | Some cs, Ok v => forallb (fun c => test c v) cs
  | _, _ => false
  end.

End Semver.

(* ================================================================= *)
(** ** The program: [src/index.ts] *)

(** [browserNameMap], keys in the order written ([Object.keys] keeps
    it).  A name is looked up among these keys, the object's own
    properties. *)
Definition browserNameMap : list (string * string) :=
  [ ("bb", "BlackBerry");
    ("and_chr", "Chrome");
    ("ChromeAndroid", "Chrome");
    ("FirefoxAndroid", "Firefox");
    ("ff", "Firefox");
    ("ie_mob", "ExplorerMobile");
    ("ie", "Explorer");
    ("and_ff", "Firefox");
    ("ios_saf", "iOS");
    ("op_mini", "OperaMini");
    ("op_mob", "OperaMobile");
    ("and_qq", "QQAndroid");
    ("and_uc", "UCAndroid") ].

Fixpoint lookup (key : string) (m : list (string * string)) : option string :=
  match m with
  | [] => None
  | (k, v) :: rest => if (k =? key)%string then Some v else lookup key rest
  end.

Definition keys (m : list (string * string)) : list string := map fst m.

(** Modelled from the spec: the fields the UA parser (the [ua-parser-js]
    package, not under [src/]) reports for a user-agent string; section
    6 of the specification lists them, each possibly undefined. *)
Record ParsedUA : Type := mkParsedUA {
  browser_name : jsval;
  browser_version : jsval;
  os_name : jsval;
  os_version : jsval;
  engine_name : jsval;
  engine_version : jsval;
  device_type : jsval
}.

Module Agent.
(** [{ family: string | null, version: string | null }] *)
Record t : Type := mk { family : option string; version : option string }.
End Agent.

(** What [parseBrowsersList] stores as the family of an entry: a
    string, or the value inherited from [Object.prototype] under a
    property name (a function or an object). *)
Inductive family_value : Type :=
| FStr (s : string)
| FInherited (name : string).

Module Entry.
(** [{ family, version: string }], one parsed query result.  The
    family is declared a string; what is stored is
    [browserNameMap[name]] or [name]. *)
Record t : Type := mk { family : family_value; version : string }.
End Entry.

Record Options : Type := mkOptions {
  browsers : option (list string);
  env : option string;
  path : option string;
  ignoreMinor : option bool;
  ignorePatch : option bool;
  allowHigherVersions : option bool
}.

(** Modelled from the spec: the three collaborators of [matchesUA]
    that are not under [src/], taken as parameters: the UA parser
    ([ua-parser-js]), the support-policy resolver
    [browserslist(queries, { env, path })], which may throw, and
    [process.cwd()].  The two case mappings of the runtime,
    [String.prototype.toLowerCase] and [toLocaleLowerCase] (which
    follows the locale of the host), are parameters as well: they fold
    the letters of every script, and nothing is assumed of them. *)
Record Host : Type := mkHost {
  UAParser : string -> ParsedUA;
  browserslist : option (list string) -> option string -> string -> outcome (list string);
  cwd : string;
  toLowerCase : string -> string;
  toLocaleLowerCase : string -> string
}.

(** [v === s] for a string literal [s]. *)
Definition is_str (v : jsval) (s : string) : bool :=
  match v with
  | JStr t => (t =? s)%string
  | _ => false
  end.

(** A [string | null] that is truthy: [null] and the empty string are
    not. *)
Definition truthy_str (v : option string) : option string :=
  match v with
  | Some s => if (s =? EmptyString)%string then None else Some s
  | None => None
  end.

Definition semverify (version : jsval) : option string :=
  if falsy version then None
  else match version with
       | JStr s =>
           match Semver.coerce s with
           | Some cooerced => Some (Semver.format cooerced)
           | None => None
           end
       | _ => None
       end.

Definition resolveParsed (ua : ParsedUA) : Agent.t :=
  let parsedBrowserVersion := semverify (browser_version ua) in
  let parsedOSVersion := semverify (os_version ua) in
  let parsedEngineVersion := semverify (engine_version ua) in
  if is_str (browser_name ua) "Safari" && is_str (os_name ua) "iOS" then
    Agent.mk (Some "iOS") parsedBrowserVersion
  else if is_str (os_name ua) "iOS" then
    Agent.mk (Some "iOS") parsedOSVersion
  else if (is_str (browser_name ua) "Opera" && is_str (device_type ua) "mobile")
          || is_str (browser_name ua) "Opera Mobi" then
    Agent.mk (Some "OperaMobile") parsedBrowserVersion
  else if is_str (browser_name ua) "Samsung Internet" then
    Agent.mk (Some "Samsung") parsedBrowserVersion
  else if is_str (browser_name ua) "IE" then
    Agent.mk (Some "Explorer") parsedBrowserVersion
  else if is_str (browser_name ua) "IEMobile" then
    Agent.mk (Some "ExplorerMobile") parsedBrowserVersion
  else if is_str (engine_name ua) "Gecko" then
    Agent.mk (Some "Firefox") parsedEngineVersion
  else if is_str (engine_name ua) "Blink" then
    Agent.mk (Some "Chrome") parsedEngineVersion
  else if negb (falsy (browser_name ua))
          && existsb (is_str (browser_name ua))
               ["Chrome"; "Chromium"; "Chrome WebView"; "Chrome Headless"] then
    Agent.mk (Some "Chrome") parsedBrowserVersion
  else if is_str (browser_name ua) "Android Browser" then
    Agent.mk (Some "Android") parsedOSVersion
  else
    Agent.mk (match browser_name ua with
              | JStr s => truthy_str (Some s)
              | _ => None
              end)
             parsedBrowserVersion.

Definition resolveUserAgent (host : Host) (uaString : string) : Agent.t :=
  resolveParsed (UAParser host uaString).

(** The [while] loop of [generateSemversInRange]; [fuel] bounds the
    number of times its condition is evaluated.  When [semver.inc]
    returns [null] the next evaluation of the condition throws. *)
Fixpoint range_loop (fuel : nat) (endSemver curVersion : string)
    (versionsInRange : list string) : outcome (list string) :=
  match fuel with
  | O => OutOfFuel
  | S fuel' =>
      continue <- Semver.gte endSemver curVersion ;;
      if (continue : bool) then
        match Semver.inc_minor curVersion with
        | Some next =>
            range_loop fuel' endSemver next (versionsInRange ++ [curVersion])
        | None => Throw (TypeError "Invalid Version")
        end
      else Ok versionsInRange
  end.

Definition generateSemversInRange (fuel : nat) (versionRange : string)
  : outcome (list string) :=
  let pieces := split "-" versionRange in
  let startSemver := semverify (at_index pieces 0) in
  let endSemver := semverify (at_index pieces 1) in
  match truthy_str startSemver, truthy_str endSemver with
  | Some s, Some e => range_loop fuel e s []
  | _, _ => Ok []
  end.

Definition normalizeQuery (query : string) : string :=
  match match_alternation (keys browserNameMap) query with
  | Some (_, m, _) =>
      replace query m
        (match lookup m browserNameMap with
         | Some canonical => canonical
         | None => "undefined"
         end)
  | None => query
  end.

(** What the second [map] of [parseBrowsersList] returns for an entry:
    one object, or an array of them for a range. *)
Inductive item : Type :=
| One (q : Entry.t)
| Many (qs : list Entry.t).

(** [const [name, version] = browser.split(' ')] *)
Definition split_entry (browser : string) : string * jsval :=
  let pieces := split " " browser in
  (match pieces with name :: _ => name | [] => EmptyString end, at_index pieces 1).

(** [browser.version !== 'TP'] *)
Definition not_TP (browser : string * jsval) : bool :=
  negb (is_str (snd browser) "TP").

(** [name in browserNameMap ? browserNameMap[name] : name]: the [in]
    operator follows the prototype chain, so the test also succeeds
    for a name inherited from [Object.prototype], and the value read
    is then no string. *)
Definition normalized_name (name : string) : family_value :=
  match lookup name browserNameMap with
  | Some canonical => FStr canonical
  | None => if inherited name then FInherited name else FStr name
  end.

Definition expand_entry (fuel : nat) (browser : string * jsval) : outcome item :=
  let (name, version) := browser in
  let normalizedName := normalized_name name in
  match version with
  | JStr v =>
      if (0 <? indexOf "-" v)%Z then
        versions <- generateSemversInRange fuel v ;;
        Ok (Many (map (fun version => Entry.mk normalizedName version) versions))
      else Ok (One (Entry.mk normalizedName v))
  | _ => Throw (TypeError "Cannot read properties of undefined (reading 'indexOf')")
  end.

(** [arr.map(f)] for a callback that may throw: elements in order,
    stopping at the first that does not return. *)
Fixpoint map_outcome {A B} (f : A -> outcome B) (l : list A) : outcome (list B) :=
  match l with
  | [] => Ok []
  | x :: rest =>
      y <- f x ;;
      ys <- map_outcome f rest ;;
      Ok (y :: ys)
  end.

(** [arr.flat()]: one level of nesting removed. *)
Definition flat (l : list item) : list Entry.t :=
  flat_map (fun i => match i with One q => [q] | Many qs => qs end) l.

Definition parseBrowsersList (fuel : nat) (browsersList : list string)
  : outcome (list Entry.t) :=
  browsers <- map_outcome (expand_entry fuel)
                (filter not_TP (map split_entry browsersList)) ;;
  Ok (flat browsers).

Definition compareBrowserSemvers (versionA versionB : string) (options : Options)
  : outcome bool :=
  match truthy_str (semverify (JStr versionA)),
        truthy_str (semverify (JStr versionB)) with
  | Some semverifiedA, Some semverifiedB =>
      let referenceVersion := semverifiedB in
      let referenceVersion :=
        if truthy (ignorePatch options) then ("~" ++ semverifiedB)%string
        else referenceVersion in
      let referenceVersion :=
        if truthy (ignoreMinor options) then ("^" ++ semverifiedB)%string
        else referenceVersion in
      if truthy (allowHigherVersions options) then
        Semver.gte semverifiedA semverifiedB
      else Ok (Semver.satisfies semverifiedA referenceVersion)
  | _, _ => Ok false
  end.

(** [arr.some(f)]: stops at the first element for which [f] is true. *)
Fixpoint some {A} (f : A -> outcome bool) (l : list A) : outcome bool :=
  match l with
  | [] => Ok false
  | x :: rest =>
      b <- f x ;;
      if (b : bool) then Ok true else some f rest
  end.

(** [{ ignoreMinor: false, ignorePatch: true, ...opts }] *)
Definition with_defaults (opts : Options) : Options :=
  mkOptions (browsers opts) (env opts) (path opts)
    (match ignoreMinor opts with Some b => Some b | None => Some false end)
    (match ignorePatch opts with Some b => Some b | None => Some true end)
    (allowHigherVersions opts).

Definition matchesUA (fuel : nat) (host : Host) (uaString : string) (opts : Options)
  : outcome bool :=
  if (uaString =? EmptyString)%string then Ok false
  else
    let normalizedQuery := option_map (map normalizeQuery) (browsers opts) in
    browsers <- browserslist host normalizedQuery (env opts)
                  (match truthy_str (path opts) with
                   | Some p => p
                   | None => cwd host
                   end) ;;
    parsedBrowsers <- parseBrowsersList fuel browsers ;;
    let resolvedUserAgent := resolveUserAgent host uaString in
    let options := with_defaults opts in
    some (fun browser =>
            match truthy_str (Agent.family resolvedUserAgent),
                  truthy_str (Agent.version resolvedUserAgent) with
            | Some family, Some version =>
                if (Entry.version browser =? EmptyString)%string then Ok false
                else
                  match Entry.family browser with
                  | FStr name =>
                      if (toLowerCase host name =? toLocaleLowerCase host family)%string
                      then compareBrowserSemvers version (Entry.version browser) options
                      else Ok false
                  | FInherited _ =>
                      Throw (TypeError "browser.family.toLowerCase is not a function")
                  end
            | _, _ => Ok false
            end)
         parsedBrowsers.

(* ================================================================= *)
(** ** Vocabulary of the statements *)

Definition no_options : Options := mkOptions None None None None None None.

Definition flags (minor patch higher : option bool) : Options :=
  mkOptions None None None minor patch higher.

Definition both_tolerances : Options := flags (Some true) (Some true) None.

(** [c] does not occur in [s]. *)
Fixpoint without (c : ascii) (s : string) : bool :=
  match s with
  | EmptyString => true
  | String d rest => negb (Ascii.eqb d c) && without c rest
  end.

(** The text before the first [c] of a string (the whole string when
    [c] does not occur), and the text after it. *)
Fixpoint before (c : ascii) (s : string) : string :=
  match s with
  | EmptyString => EmptyString
  | String d rest => if Ascii.eqb d c then EmptyString else String d (before c rest)
  end.

Fixpoint after (c : ascii) (s : string) : option string :=
  match s with
  | EmptyString => None
  | String d rest => if Ascii.eqb d c then Some rest else after c rest
  end.

(** [k] occurs in [s] right after the text [a]. *)
Definition occurs_after (a k s : string) : Prop :=
  exists b, s = (a ++ k ++ b)%string.

(** None of [aliases] occurs in [s] at a position before the end of
    [pre]. *)
Definition leftmost (aliases : list string) (pre s : string) : Prop :=
  forall k a, In k aliases -> occurs_after a k s ->
              String.length pre <= String.length a.

Fixpoint all_digits (s : string) : bool :=
  match s with
  | EmptyString => true
  | String c rest => Semver.is_digit c && all_digits rest
  end.

(** A component of the coercion pattern: a run of 1 to 16 digits. *)
Definition component (a : string) : bool :=
  all_digits a && Semver.component_length_ok a.

(** Semantic-version ordering: lexicographic on major, minor, patch. *)
Definition version_le (a b : Semver.SemVer) : Prop :=
  (Semver.major a < Semver.major b
   \/ (Semver.major a = Semver.major b
       /\ (Semver.minor a < Semver.minor b
           \/ (Semver.minor a = Semver.minor b
               /\ Semver.patch a <= Semver.patch b))))%N.

Definition version_lt (a b : Semver.SemVer) : Prop :=
  (Semver.major a < Semver.major b
   \/ (Semver.major a = Semver.major b
       /\ (Semver.minor a < Semver.minor b
           \/ (Semver.minor a = Semver.minor b
               /\ Semver.patch a < Semver.patch b))))%N.

(** The [j]-th version of the enumeration of a range: the start
    itself, then minor increments with patch reset to 0. *)
Definition minor_step (start : Semver.SemVer) (j : nat) : Semver.SemVer :=
  match j with
  | O => start
  | S _ => Semver.mkSemVer (Semver.major start)
             (Semver.minor start + N.of_nat j) 0
  end.

Definition version_at (start : Semver.SemVer) (j : nat) : string :=
  Semver.format (minor_step start j).

(** The condition [end >= current] holds for the first [k] versions of
    the enumeration and fails for the next one, all of them valid
    versions. *)
Definition stops_at (start end_ : Semver.SemVer) (k : nat) : Prop :=
  (forall j, j < k ->
     Semver.safe (minor_step start j) = true /\ version_le (minor_step start j) end_)
  /\ Semver.safe (minor_step start k) = true
  /\ version_lt end_ (minor_step start k).

(** The reference range the comparator builds: both flags are tested
    one after the other, [ignorePatch] first and [ignoreMinor] second,
    each assigning the range, so the second assignment prevails. *)
Definition reference_range (options : Options) (q : string) : string :=
  if truthy (ignoreMinor options) then ("^" ++ q)%string
  else if truthy (ignorePatch options) then ("~" ++ q)%string
  else q.

(** The reference range in the specification's words: [~] if
    [ignorePatch], else [^] if [ignoreMinor], else the version itself. *)
Definition specified_reference_range (options : Options) (q : string) : string :=
  if truthy (ignorePatch options) then ("~" ++ q)%string
  else if truthy (ignoreMinor options) then ("^" ++ q)%string
  else q.

(** What one query result contributes to the parsed list: its name is
    the text before the first space and its version the text between
    the first space and the next one (or the end). *)
Definition entry_result (fuel : nat) (entry : string) : outcome (list Entry.t) :=
  let name := before " " entry in
  match after " " entry with
  | None => Throw (TypeError "Cannot read properties of undefined (reading 'indexOf')")
  | Some rest =>
      let version := before " " rest in
      if (version =? "TP")%string then Ok []
      else if (0 <? indexOf "-" version)%Z then
        versions <- generateSemversInRange fuel version ;;
        Ok (map (Entry.mk (normalized_name name)) versions)
      else Ok [Entry.mk (normalized_name name) version]
  end.

(** The parsed query results [matchesUA] scans: the queries are
    aliased, resolved by [browserslist], and parsed. *)
Definition policy_entries (fuel : nat) (host : Host) (opts : Options)
  : outcome (list Entry.t) :=
  browsers <- browserslist host (option_map (map normalizeQuery) (browsers opts))
                (env opts)
                (match truthy_str (path opts) with
                 | Some p => p
                 | None => cwd host
                 end) ;;
  parseBrowsersList fuel browsers.

(** Sample inputs. *)
Definition sample_query_results : list string :=
  ["ie 11"; "chrome 10.0-10.2"; "firefox TP"].

(** The result the specification gives for [sample_query_results]. *)
Definition specified_sample_entries : list Entry.t :=
  [Entry.mk (FStr "Explorer") "11"; Entry.mk (FStr "Chrome") "10.0.0";
   Entry.mk (FStr "Chrome") "10.1.0"; Entry.mk (FStr "Chrome") "10.2.0"].

Definition safari_on_iOS : ParsedUA :=
  mkParsedUA (JStr "Safari") (JStr "12.1") (JStr "iOS") (JStr "12.2")
             (JStr "WebKit") (JStr "605.1.15") (JStr "mobile").

Definition chrome_on_iOS : ParsedUA :=
  mkParsedUA (JStr "Chrome") (JStr "74.0.3729.121") (JStr "iOS") (JStr "12.2")
             (JStr "WebKit") (JStr "605.1.15") (JStr "mobile").

Definition undetected : ParsedUA :=
  mkParsedUA JUndefined JUndefined JUndefined JUndefined JUndefined JUndefined
             JUndefined.

(** A host with a fixed UA parser result and an empty policy. *)
Definition fixed_parser (ua : ParsedUA) : Host :=
  mkHost (fun _ => ua) (fun _ _ _ => Ok []) "/"
         ascii_lowercase ascii_lowercase.

(** A host whose resolver throws, as for an unknown environment. *)
Definition host_bad_config : Host :=
  mkHost (fun _ => undetected)
         (fun _ _ _ => Throw (TypeError "Unknown browser query"))
         "/" ascii_lowercase ascii_lowercase.

(** A host whose resolver returns a usable list, and whose UA parser
    detects nothing. *)
Definition host_undetected : Host :=
  mkHost (fun _ => undetected) (fun _ _ _ => Ok sample_query_results) "/"
         ascii_lowercase ascii_lowercase.

(** A host whose resolver returns a range that crosses a major
    version, and whose UA parser detects nothing. *)
Definition host_cross_major : Host :=
  mkHost (fun _ => undetected) (fun _ _ _ => Ok ["chrome 1.0-2.0"]) "/"
         ascii_lowercase ascii_lowercase.

Definition chrome_80 : ParsedUA :=
  mkParsedUA (JStr "Chrome") (JStr "80.0.3987.87") (JStr "Windows") (JStr "10")
             (JStr "Blink") (JStr "80.0.3987.87") JUndefined.

(** A host that sees Chrome 80 and supports Firefox 72 and Chrome 80. *)
Definition host_chrome_80 : Host :=
  mkHost (fun _ => chrome_80) (fun _ _ _ => Ok ["firefox 72"; "chrome 80"]) "/"
         ascii_lowercase ascii_lowercase.

(** *** Vocabulary of the further properties *)

(** The families [resolveUserAgent] assigns by rule. *)
Definition canonical_families : list string :=
  ["iOS"; "OperaMobile"; "Samsung"; "Explorer"; "ExplorerMobile"; "Firefox";
   "Chrome"; "Android"].

(** One of the rules of [resolveUserAgent] that look at the browser
    name before the engine is consulted applies. *)
Definition browser_rule (ua : ParsedUA) : bool :=
  (is_str (browser_name ua) "Opera" && is_str (device_type ua) "mobile")
  || is_str (browser_name ua) "Opera Mobi"
  || is_str (browser_name ua) "Samsung Internet"
  || is_str (browser_name ua) "IE"
  || is_str (browser_name ua) "IEMobile".

(** The options with [allowHigherVersions: true] added. *)
Definition with_allowHigherVersions (options : Options) : Options :=
  mkOptions (browsers options) (env options) (path options)
            (ignoreMinor options) (ignorePatch options) (Some true).

(** Name and version of a query result, as [parseBrowsersList] reads
    them. *)
Definition entry_name (entry : string) : string := before " " entry.

Definition entry_version (entry : string) : string :=
  match after " " entry with
  | Some rest => before " " rest
  | None => EmptyString
  end.

(** An entry with a space whose version is not a range. *)
Definition plain_entry (entry : string) : bool :=
  match after " " entry with
  | Some rest => negb (0 <? indexOf "-" (before " " rest))%Z
  | None => false
  end.

(** A range token that the expansion loop leaves: when both boundaries
    normalize, the end is not in a later major version than the start
    and its minor version is below the largest safe integer. *)
Definition expandable (token : string) : Prop :=
  forall s e vs ve,
    semverify (at_index (split "-" token) 0) = Some s ->
    semverify (at_index (split "-" token) 1) = Some e ->
    Semver.parse s = Ok vs -> Semver.parse e = Ok ve ->
    (Semver.major ve <= Semver.major vs
     /\ Semver.minor ve < Semver.MAX_SAFE_INTEGER)%N.

Definition well_formed_entry (entry : string) : Prop :=
  exists rest, after " " entry = Some rest /\ expandable (before " " rest).

(** The family of a parsed entry is a string. *)
Definition string_family (browser : Entry.t) : bool :=
  match Entry.family browser with
  | FStr _ => true
  | FInherited _ => false
  end.

(** The family of a parsed entry is the string [name]. *)
Definition family_is (browser : Entry.t) (name : string) : Prop :=
  Entry.family browser = FStr name.

(** A parsed query result that the resolved agent satisfies: its
    family is a string that [toLowerCase] maps to what
    [toLocaleLowerCase] makes of the agent's family, and the comparator
    accepts its version under the options merged with the defaults. *)
Definition entry_matches (host : Host) (agent : Agent.t) (opts : Options)
    (browser : Entry.t) : Prop :=
  exists name family version,
    family_is browser name
    /\ Agent.family agent = Some family /\ Agent.version agent = Some version
    /\ toLowerCase host name = toLocaleLowerCase host family
    /\ compareBrowserSemvers version (Entry.version browser) (with_defaults opts)
       = Ok true.

(** The decision of the scan of [matchesUA] for one entry whose family
    is a string, as a boolean. *)
Definition accepts (host : Host) (agent : Agent.t) (opts : Options)
    (browser : Entry.t) : bool :=
  match Agent.family agent, Agent.version agent with
  | Some family, Some version =>
      negb (Entry.version browser =? EmptyString)%string
      && match Entry.family browser with
         | FStr name =>
             (toLowerCase host name =? toLocaleLowerCase host family)%string
         | FInherited _ => false
         end
      && match compareBrowserSemvers version (Entry.version browser)
                 (with_defaults opts) with
         | Ok b => b
         | _ => false
         end
  | _, _ => false
  end.

(** The scan of [matchesUA] fails at an entry: the agent has a family
    and a version, the entry has a version that is not empty, and its
    family is no string, so that [browser.family.toLowerCase] is no
    function. *)
Definition scan_fails_at (agent : Agent.t) (browser : Entry.t) : bool :=
  match Agent.family agent, Agent.version agent with
  | Some _, Some _ =>
      negb (Entry.version browser =? EmptyString)%string
      && negb (string_family browser)
  | _, _ => false
  end.

(** The exception of the scan. *)
Definition not_a_function : js_error :=
  TypeError "browser.family.toLowerCase is not a function".

(** More sample inputs. *)
Definition edge_on_blink : ParsedUA :=
  mkParsedUA (JStr "Edge") (JStr "80.0.361.50") (JStr "Windows") (JStr "10")
             (JStr "Blink") (JStr "80.0.3987.87") JUndefined.

Definition firefox_on_gecko : ParsedUA :=
  mkParsedUA (JStr "Firefox") (JStr "72.0") (JStr "Linux") JUndefined
             (JStr "Gecko") (JStr "72.0") JUndefined.

Definition samsung_on_blink : ParsedUA :=
  mkParsedUA (JStr "Samsung Internet") (JStr "11.1") (JStr "Android") (JStr "9")
             (JStr "Blink") (JStr "75.0.3770.143") (JStr "mobile").

Definition safari_on_mac : ParsedUA :=
  mkParsedUA (JStr "Safari") (JStr "13.0.5") (JStr "Mac OS") (JStr "10.15.3")
             (JStr "WebKit") (JStr "605.1.15") JUndefined.

(** [host_chrome_80] with its query results in the other order. *)
Definition host_chrome_80_reordered : Host :=
  mkHost (fun _ => chrome_80) (fun _ _ _ => Ok ["chrome 80"; "firefox 72"]) "/"
         ascii_lowercase ascii_lowercase.

(** A host that sees Chrome 80 and whose resolver names a browser
    [toString]. *)
Definition host_inherited_name : Host :=
  mkHost (fun _ => chrome_80) (fun _ _ _ => Ok ["toString 80"; "chrome 80"]) "/"
         ascii_lowercase ascii_lowercase.

(* ================================================================= *)
(** ** Sample evaluations *)

Example semverify_10 : semverify (JStr "10") = Some "10.0.0".
Proof. reflexivity. Qed.

Example semverify_garbage : semverify (JStr "garbage") = None.
Proof. reflexivity. Qed.

Example semverify_leading_text : semverify (JStr "v010.2-beta") = Some "10.2.0".
Proof. reflexivity. Qed.

Example semverify_seventeen_digits :
  semverify (JStr "12345678901234567.5.6") = Some "5.6.0".
Proof. reflexivity. Qed.

Example generate_4_4 :
  generateSemversInRange 5 "4.4.3-4.4.4" = Ok ["4.4.3"].
Proof. reflexivity. Qed.

Example resolve_chrome_80 :
  resolveUserAgent host_chrome_80 "Mozilla/5.0"
  = Agent.mk (Some "Chrome") (Some "80.0.3987").
Proof. reflexivity. Qed.

Example matchesUA_chrome_80 :
  matchesUA 1 host_chrome_80 "Mozilla/5.0" no_options = Ok true.
Proof. reflexivity. Qed.

Example matchesUA_chrome_80_exact_patch :
  matchesUA 1 host_chrome_80 "Mozilla/5.0" (flags None (Some false) None) = Ok false.
Proof. reflexivity. Qed.

(* ================================================================= *)
(** ** Strings: prefixes, pieces and separators *)

Section StringFacts.

Lemma append_empty_r (s : string) : (s ++ EmptyString)%string = s.
Proof. induction s; simpl; congruence. Qed.

Lemma append_assoc (a b c : string) :
  ((a ++ b) ++ c)%string = (a ++ (b ++ c))%string.
Proof. induction a; simpl; congruence. Qed.

Lemma length_append (a b : string) :
  String.length (a ++ b) = String.length a + String.length b.
Proof. induction a; simpl; congruence. Qed.

Lemma prefix_append (k s : string) : prefix k (k ++ s) = true.
Proof.
  induction k as [|c k IH]; simpl; [destruct s; reflexivity|].
  destruct (ascii_dec c c); [exact IH | congruence].
Qed.

Lemma prefix_skip (k s : string) :
  prefix k s = true -> s = (k ++ skip (String.length k) s)%string.
Proof.
  revert s; induction k as [|c k IH]; intros s H; simpl; [reflexivity|].
  destruct s as [|d s]; simpl in H; [discriminate|].
  destruct (ascii_dec c d); [subst d | discriminate].
  simpl. f_equal. apply IH, H.
Qed.

Lemma skip_append (k s : string) : skip (String.length k) (k ++ s) = s.
Proof. induction k; simpl; auto. Qed.

Lemma split_without (c : ascii) (s : string) :
  without c s = true -> split c s = [s].
Proof.
  induction s as [|d s IH]; simpl; intros H; [reflexivity|].
  apply andb_prop in H as [Hd Hs].
  apply negb_true_iff in Hd. rewrite Hd, (IH Hs). reflexivity.
Qed.

Lemma split_append (c : ascii) (a b : string) :
  without c a = true -> split c (a ++ String c b) = a :: split c b.
Proof.
  induction a as [|d a IH]; simpl; intros H.
  - rewrite Ascii.eqb_refl. reflexivity.
  - apply andb_prop in H as [Hd Ha].
    apply negb_true_iff in Hd. rewrite Hd, (IH Ha). reflexivity.
Qed.

Lemma split_nonempty (c : ascii) (s : string) : split c s <> [].
Proof.
  induction s as [|d s IH]; simpl; [discriminate|].
  destruct (Ascii.eqb d c); [discriminate|].
  destruct (split c s); [contradiction | discriminate].
Qed.

Lemma indexOf_without (c : ascii) (s : string) :
  without c s = true -> indexOf c s = (-1)%Z.
Proof.
  induction s as [|d s IH]; simpl; intros H; [reflexivity|].
  apply andb_prop in H as [Hd Hs].
  apply negb_true_iff in Hd. rewrite Hd, (IH Hs). reflexivity.
Qed.

Lemma indexOf_lower_bound (c : ascii) (s : string) : (-1 <= indexOf c s)%Z.
Proof.
  induction s as [|d s IH]; simpl; [lia|].
  destruct (Ascii.eqb d c); [lia|].
  destruct (indexOf c s <? 0)%Z eqn:E; [lia|]. apply Z.ltb_ge in E. lia.
Qed.

End StringFacts.

(* ================================================================= *)
(** ** The semver engine: rendering, parsing and order *)

Module SemverFacts.

Import Semver.

Lemma num_dec (n : N) : num (dec n) = n.
Proof.
  unfold num, dec. rewrite NilEmpty.usu. apply DecimalN.Unsigned.of_to.
Qed.

Lemma string_of_uint_digits (d : Decimal.uint) :
  all_digits (NilEmpty.string_of_uint d) = true.
Proof. induction d; simpl; auto. Qed.

Lemma dec_digits (n : N) : all_digits (dec n) = true.
Proof. apply string_of_uint_digits. Qed.

Lemma dec_nonempty (n : N) : dec n <> EmptyString.
Proof.
  unfold dec. destruct n as [|p]; [discriminate|].
  simpl. pose proof (DecimalPos.Unsigned.to_uint_nonnil p) as H.
  destruct (Pos.to_uint p); simpl; try discriminate. contradiction.
Qed.

Lemma digit_not (c d : ascii) :
  is_digit d = false -> is_digit c = true -> Ascii.eqb c d = false.
Proof.
  intros Hd Hc. destruct (Ascii.eqb_spec c d); [subst; congruence | reflexivity].
Qed.

Lemma digits_without (d : ascii) (s : string) :
  is_digit d = false -> all_digits s = true -> without d s = true.
Proof.
  intros Hd. induction s as [|c s IH]; simpl; intros H; [reflexivity|].
  apply andb_prop in H as [Hc Hs].
  rewrite (digit_not c d Hd Hc), (IH Hs). reflexivity.
Qed.

Lemma split_format (v : SemVer) :
  split "." (format v) = [dec (major v); dec (minor v); dec (patch v)].
Proof.
  unfold format. simpl append.
  rewrite split_append by (apply digits_without; [reflexivity | apply dec_digits]).
  rewrite split_append by (apply digits_without; [reflexivity | apply dec_digits]).
  rewrite split_without by (apply digits_without; [reflexivity | apply dec_digits]).
  reflexivity.
Qed.

Lemma format_nonempty (v : SemVer) : format v <> EmptyString.
Proof.
  unfold format. pose proof (dec_nonempty (major v)) as H.
  destruct (dec (major v)); [contradiction | discriminate].
Qed.

(** A rendered version parses back to itself when its components are
    safe integers. *)
Lemma parse_format (v : SemVer) : safe v = true -> parse (format v) = Ok v.
Proof.
  intros Hs. unfold parse. rewrite split_format, !num_dec.
  destruct v as [a b c]; simpl major; simpl minor; simpl patch.
  rewrite String.eqb_refl.
  unfold safe in Hs; simpl in Hs.
  apply andb_prop in Hs as [Hs Hc]. apply andb_prop in Hs as [Ha Hb].
  apply N.leb_le in Ha, Hb, Hc.
  destruct (N.ltb_spec MAX_SAFE_INTEGER a); [lia|].
  destruct (N.ltb_spec MAX_SAFE_INTEGER b); [lia|].
  destruct (N.ltb_spec MAX_SAFE_INTEGER c); [lia|].
  reflexivity.
Qed.

(** The parser accepts safe versions only, and only in their
    canonical rendering. *)
Lemma parse_Ok (s : string) (v : SemVer) :
  parse s = Ok v -> s = format v /\ safe v = true.
Proof.
  unfold parse. destruct (split "." s) as [|ma [|mi [|pa [|]]]]; try discriminate.
  set (w := mkSemVer (num ma) (num mi) (num pa)).
  destruct (String.eqb_spec (format w) s) as [E|]; [|discriminate].
  unfold safe.
  destruct (N.ltb_spec MAX_SAFE_INTEGER (major w)); [discriminate|].
  destruct (N.ltb_spec MAX_SAFE_INTEGER (minor w)); [discriminate|].
  destruct (N.ltb_spec MAX_SAFE_INTEGER (patch w)); [discriminate|].
  intros [= <-]. split; [congruence|].
  rewrite !andb_true_iff, !N.leb_le. auto.
Qed.

Lemma parse_never_out_of_fuel (s : string) : parse s <> OutOfFuel.
Proof.
  unfold parse. destruct (split "." s) as [|ma [|mi [|pa [|]]]]; try discriminate.
  repeat match goal with |- context [if ?b then _ else _] => destruct b end;
    discriminate.
Qed.

Lemma format_inj (v w : SemVer) : format v = format w -> v = w.
Proof.
  intros H. pose proof (split_format v) as Hv. rewrite H, split_format in Hv.
  injection Hv as Ha Hb Hc.
  apply (f_equal num) in Ha, Hb, Hc. rewrite !num_dec in Ha, Hb, Hc.
  destruct v, w; simpl in *; congruence.
Qed.

Lemma geb_le (a b : SemVer) : geb a b = true <-> version_le b a.
Proof.
  unfold geb, compare_main, version_le.
  destruct (N.compare_spec (major a) (major b));
    destruct (N.compare_spec (minor a) (minor b));
    destruct (N.compare_spec (patch a) (patch b));
    split; intros; try discriminate; try reflexivity; lia.
Qed.

Lemma geb_false_lt (a b : SemVer) : geb a b = false <-> version_lt a b.
Proof.
  unfold geb, compare_main, version_lt.
  destruct (N.compare_spec (major a) (major b));
    destruct (N.compare_spec (minor a) (minor b));
    destruct (N.compare_spec (patch a) (patch b));
    split; intros; try discriminate; try reflexivity; lia.
Qed.

Lemma ltb_lt (a b : SemVer) : ltb a b = true <-> version_lt a b.
Proof.
  unfold ltb, compare_main, version_lt.
  destruct (N.compare_spec (major a) (major b));
    destruct (N.compare_spec (minor a) (minor b));
    destruct (N.compare_spec (patch a) (patch b));
    split; intros; try discriminate; try reflexivity; lia.
Qed.

Lemma gte_format (a b : SemVer) :
  safe a = true -> safe b = true ->
  gte (format a) (format b) = Ok (geb a b).
Proof.
  intros Ha Hb. unfold gte. rewrite (parse_format a Ha), (parse_format b Hb).
  reflexivity.
Qed.

Lemma inc_minor_format (v : SemVer) :
  safe v = true ->
  inc_minor (format v) = Some (format (mkSemVer (major v) (minor v + 1) 0)).
Proof. intros H. unfold inc_minor. rewrite (parse_format v H). reflexivity. Qed.

Lemma coerce_safe (s : string) (v : SemVer) : coerce s = Some v -> safe v = true.
Proof.
  unfold coerce. destruct (coerce_match false s) as [[[ma mi] pa]|]; [|discriminate].
  destruct (safe _) eqn:E; [|discriminate]. intros [= <-]. exact E.
Qed.

End SemverFacts.

(* ================================================================= *)
(** ** Normalizing a version: [semverify] *)

Section Semverify.

Import Semver SemverFacts.

Lemma semverify_Some (version : jsval) (x : string) :
  semverify version = Some x ->
  exists s v, version = JStr s /\ coerce s = Some v /\ x = format v /\ safe v = true.
Proof.
  unfold semverify. destruct (falsy version); [discriminate|].
  destruct version as [| |s]; try discriminate.
  destruct (coerce s) as [v|] eqn:E; [|discriminate].
  intros [= <-]. exists s, v.
  split; [reflexivity|]. split; [exact E|]. split; [reflexivity|].
  eapply coerce_safe, E.
Qed.

Lemma semverify_parse (version : jsval) (x : string) :
  semverify version = Some x ->
  exists v, x = format v /\ safe v = true /\ parse x = Ok v.
Proof.
  intros H. destruct (semverify_Some _ _ H) as (s & v & _ & _ & -> & Hs).
  exists v. split; [reflexivity|]. split; [exact Hs | apply parse_format, Hs].
Qed.

Lemma truthy_str_format (v : SemVer) :
  truthy_str (Some (format v)) = Some (format v).
Proof.
  unfold truthy_str. destruct (String.eqb_spec (format v) EmptyString); [|reflexivity].
  now destruct (format_nonempty v).
Qed.

(** A normalized version is never the empty string, so testing it
    with [!] only tells [null] apart. *)
Lemma truthy_str_semverify (version : jsval) :
  truthy_str (semverify version) = semverify version.
Proof.
  destruct (semverify version) as [x|] eqn:E; [|reflexivity].
  destruct (semverify_parse _ _ E) as (v & -> & _). apply truthy_str_format.
Qed.

Lemma semverify_coerce (s : string) (v : SemVer) :
  coerce s = Some v -> semverify (JStr s) = Some (format v).
Proof.
  intros H. unfold semverify. destruct s as [|c s]; [discriminate H|].
  simpl falsy. rewrite H. reflexivity.
Qed.

Lemma span_digits_append (a rest : string) :
  all_digits a = true ->
  (forall c r, rest = String c r -> is_digit c = false) ->
  span_digits (a ++ rest) = (a, rest).
Proof.
  intros Ha Hrest. induction a as [|c a IH]; simpl append.
  - destruct rest as [|c r]; [reflexivity|].
    unfold span_digits. rewrite (Hrest c r eq_refl). reflexivity.
  - cbn [all_digits] in Ha. apply andb_prop in Ha as [Hc Ha].
    unfold span_digits; fold span_digits. rewrite Hc, (IH Ha). reflexivity.
Qed.

Lemma coerce_match_component (a rest : string) :
  component a = true ->
  (forall c r, rest = String c r -> is_digit c = false) ->
  coerce_match false (a ++ rest) = Some (coerce_groups a rest).
Proof.
  intros Ha Hrest. apply andb_prop in Ha as [Hd Hl].
  pose proof (span_digits_append a rest Hd Hrest) as Hspan.
  destruct a as [|c a]; [discriminate Hl|].
  cbn [all_digits] in Hd. apply andb_prop in Hd as [Hc Hd].
  change (String c a ++ rest)%string with (String c (a ++ rest)) in *.
  unfold coerce_match; fold coerce_match. rewrite Hc, Hspan, Hl. reflexivity.
Qed.

Lemma dot_component_append (b rest : string) :
  component b = true ->
  (forall c r, rest = String c r -> is_digit c = false) ->
  dot_component (String "." (b ++ rest)) = Some (b, rest).
Proof.
  intros Hb Hrest. apply andb_prop in Hb as [Hd Hl].
  unfold dot_component. rewrite (span_digits_append b rest Hd Hrest), Hl.
  reflexivity.
Qed.

Lemma no_digit_ahead_empty : forall c r, EmptyString = String c r -> is_digit c = false.
Proof. discriminate. Qed.

Lemma no_digit_ahead_dot (s : string) :
  forall c r, String "." s = String c r -> is_digit c = false.
Proof. intros c r [= <- _]. reflexivity. Qed.

Lemma safe_intro (a b c : N) :
  (a <= MAX_SAFE_INTEGER -> b <= MAX_SAFE_INTEGER -> c <= MAX_SAFE_INTEGER ->
   safe (mkSemVer a b c) = true)%N.
Proof.
  intros. unfold safe; simpl. rewrite !andb_true_iff, !N.leb_le. auto.
Qed.

(** A bare major version: minor and patch are coerced to 0. *)
Lemma semverify_major (a : string) :
  component a = true -> (num a <= MAX_SAFE_INTEGER)%N ->
  semverify (JStr a) = Some (format (mkSemVer (num a) 0 0)).
Proof.
  intros Ha Hn. apply semverify_coerce. unfold coerce.
  rewrite <- (append_empty_r a) at 1.
  rewrite (coerce_match_component a EmptyString Ha no_digit_ahead_empty).
  unfold coerce_groups. simpl dot_component. cbv iota.
  change (num "0") with 0%N.
  rewrite safe_intro; [reflexivity | exact Hn | discriminate | discriminate].
Qed.

(** Major and minor: patch is coerced to 0. *)
Lemma semverify_major_minor (a b : string) :
  component a = true -> component b = true ->
  (num a <= MAX_SAFE_INTEGER)%N -> (num b <= MAX_SAFE_INTEGER)%N ->
  semverify (JStr (a ++ "." ++ b)) = Some (format (mkSemVer (num a) (num b) 0)).
Proof.
  intros Ha Hb Hna Hnb. apply semverify_coerce. unfold coerce.
  simpl append.
  rewrite (coerce_match_component a _ Ha (no_digit_ahead_dot b)).
  unfold coerce_groups.
  rewrite <- (append_empty_r b) at 1.
  rewrite (dot_component_append b EmptyString Hb no_digit_ahead_empty).
  simpl dot_component. cbv iota.
  change (num "0") with 0%N.
  rewrite safe_intro; [reflexivity | exact Hna | exact Hnb | discriminate].
Qed.

End Semverify.

(** C6.  The normalizer [semverify] returns [null] for the empty
    string, for [null] and for [undefined], and for every token that
    the loose coercion rejects.  It is a plain function into
    [option string]: there is no throwing path, failure is the [null]
    result.  For a token that coerces, the result is the canonical
    rendering [major.minor.patch] of the coerced version, a string the
    strict parser reads back as that version; a token that is a bare
    major, or a major and a minor, gets 0 for the missing components.
    In particular normalize("10") = "10.0.0" and
    normalize("2.5") = "2.5.0". *)
Theorem semverify_null_or_canonical :
  semverify (JStr EmptyString) = None /\
  semverify JNull = None /\
  semverify JUndefined = None /\
  (forall s, Semver.coerce s = None -> semverify (JStr s) = None) /\
  (forall s v, Semver.coerce s = Some v ->
     semverify (JStr s)
     = Some (Semver.dec (Semver.major v) ++ "." ++ Semver.dec (Semver.minor v)
               ++ "." ++ Semver.dec (Semver.patch v))%string
     /\ Semver.parse (Semver.format v) = Ok v) /\
  (forall a, component a = true ->
     (Semver.num a <= Semver.MAX_SAFE_INTEGER)%N ->
     semverify (JStr a) = Some (Semver.dec (Semver.num a) ++ ".0.0")%string) /\
  (forall a b, component a = true -> component b = true ->
     (Semver.num a <= Semver.MAX_SAFE_INTEGER)%N ->
     (Semver.num b <= Semver.MAX_SAFE_INTEGER)%N ->
     semverify (JStr (a ++ "." ++ b))
     = Some (Semver.dec (Semver.num a) ++ "." ++ Semver.dec (Semver.num b) ++ ".0")%string) /\
  semverify (JStr "10") = Some "10.0.0" /\
  semverify (JStr "2.5") = Some "2.5.0".
Proof.
  repeat match goal with |- _ /\ _ => split end; try reflexivity.
  - intros s H. unfold semverify. destruct (falsy (JStr s)); [reflexivity|].
    rewrite H. reflexivity.
  - intros s v H. split.
    + apply semverify_coerce, H.
    + apply SemverFacts.parse_format. eapply SemverFacts.coerce_safe, H.
  - intros a Ha Hn. apply (semverify_major a Ha Hn).
  - intros a b Ha Hb Hna Hnb. apply (semverify_major_minor a b Ha Hb Hna Hnb).
Qed.

Lemma semverify_null_or_canonical_witness :
  Semver.coerce "garbage" = None /\ semverify (JStr "garbage") = None /\
  Semver.coerce "v11.4-beta" = Some (Semver.mkSemVer 11 4 0) /\
  semverify (JStr "v11.4-beta") = Some "11.4.0" /\
  semverify (JStr "0042") = Some "42.0.0" /\
  semverify (JStr "007.10") = Some "7.10.0".
Proof.
  destruct semverify_null_or_canonical
    as (_ & _ & _ & Hnull & Hsome & Hmajor & Hminor & _).
  split; [reflexivity|]. split; [apply Hnull; reflexivity|].
  split; [reflexivity|].
  split; [apply (Hsome "v11.4-beta" (Semver.mkSemVer 11 4 0)); reflexivity|].
  split; [apply (Hmajor "0042"); [reflexivity | vm_compute; discriminate]|].
  apply (Hminor "007" "10"); try reflexivity; vm_compute; discriminate.
Defined.

(* ================================================================= *)
(** ** Resolving a user agent *)

(** C2.  The decision rules of [resolveUserAgent] are applied in order
    and the first that matches wins: a parsed UA whose browser is
    "Safari" on the OS "iOS" resolves to family "iOS" with the
    normalized browser version (rule 1); a parsed UA on "iOS" whose
    browser is not "Safari" resolves to family "iOS" with the normalized
    OS version (rule 2, which rule 1 shadows). *)
Theorem resolveUserAgent_iOS_rules (host : Host) (uaString : string) :
  let ua := UAParser host uaString in
  (browser_name ua = JStr "Safari" -> os_name ua = JStr "iOS" ->
   resolveUserAgent host uaString
   = Agent.mk (Some "iOS") (semverify (browser_version ua)))
  /\
  (os_name ua = JStr "iOS" -> browser_name ua <> JStr "Safari" ->
   resolveUserAgent host uaString
   = Agent.mk (Some "iOS") (semverify (os_version ua))).
Proof.
  intros ua. unfold resolveUserAgent. fold ua. split.
  - intros Hb Ho. unfold resolveParsed. rewrite Hb, Ho. reflexivity.
  - intros Ho Hb. unfold resolveParsed. rewrite Ho.
    assert (is_str (browser_name ua) "Safari" = false) as ->.
    { destruct (browser_name ua) as [| |s]; try reflexivity.
      simpl. apply String.eqb_neq. congruence. }
    reflexivity.
Qed.

Lemma resolveUserAgent_iOS_rules_witness :
  resolveUserAgent (fixed_parser safari_on_iOS) "ua" = Agent.mk (Some "iOS") (Some "12.1.0")
  /\ resolveUserAgent (fixed_parser chrome_on_iOS) "ua" = Agent.mk (Some "iOS") (Some "12.2.0").
Proof.
  split.
  - apply (proj1 (resolveUserAgent_iOS_rules (fixed_parser safari_on_iOS) "ua"));
      reflexivity.
  - apply (proj2 (resolveUserAgent_iOS_rules (fixed_parser chrome_on_iOS) "ua"));
      [reflexivity | discriminate].
Defined.

(* ================================================================= *)
(** ** Comparing versions: [compareBrowserSemvers] *)

Section Compare.

Import Semver SemverFacts.

Lemma compareBrowserSemvers_normalized (a q a' q' : string) (options : Options) :
  semverify (JStr a) = Some a' -> semverify (JStr q) = Some q' ->
  compareBrowserSemvers a q options
  = if truthy (allowHigherVersions options) then gte a' q'
    else Ok (satisfies a' (reference_range options q')).
Proof.
  intros Ha Hq. unfold compareBrowserSemvers, reference_range.
  rewrite !truthy_str_semverify, Ha, Hq.
  destruct (truthy (allowHigherVersions options)); [reflexivity|].
  destruct (truthy (ignoreMinor options)), (truthy (ignorePatch options));
    reflexivity.
Qed.

(** The comparator never throws and needs no step budget. *)
Lemma compareBrowserSemvers_returns (a q : string) (options : Options) :
  exists b, compareBrowserSemvers a q options = Ok b.
Proof.
  destruct (semverify (JStr a)) as [a'|] eqn:Ha.
  - destruct (semverify (JStr q)) as [q'|] eqn:Hq.
    + rewrite (compareBrowserSemvers_normalized a q a' q' options Ha Hq).
      destruct (semverify_parse _ _ Ha) as (va & -> & Hsa & _).
      destruct (semverify_parse _ _ Hq) as (vq & -> & Hsq & _).
      rewrite (gte_format va vq Hsa Hsq).
      destruct (truthy (allowHigherVersions options)); eauto.
    + unfold compareBrowserSemvers. rewrite !truthy_str_semverify, Ha, Hq.
      eauto.
  - unfold compareBrowserSemvers. rewrite !truthy_str_semverify, Ha. eauto.
Qed.

(** What the three shapes of range mean for safe versions. *)
Lemma format_starts_with_digit (w : SemVer) :
  exists c s, format w = String c s /\ is_digit c = true.
Proof.
  unfold format. pose proof (dec_digits (major w)) as Hd.
  pose proof (dec_nonempty (major w)) as Hn.
  destruct (dec (major w)) as [|c s]; [contradiction|].
  cbn [all_digits] in Hd. apply andb_prop in Hd as [Hc _].
  exists c. eexists. split; [reflexivity | exact Hc].
Qed.

Lemma satisfies_exact (v w : SemVer) :
  safe v = true -> safe w = true ->
  satisfies (format v) (format w) = true <-> v = w.
Proof.
  intros Hv Hw. unfold satisfies, parse_range, desugar.
  destruct (format_starts_with_digit w) as (c & s & E & Hc).
  pose proof (parse_format w Hw) as Hp. rewrite E in Hp |- *.
  rewrite (digit_not c "~" eq_refl Hc), (digit_not c "^" eq_refl Hc), Hp.
  cbn [forallb bound]. rewrite Hw, (parse_format v Hv). cbn [andb forallb test].
  rewrite andb_true_r. unfold compare_main.
  destruct v as [a b d], w as [x y z]; cbn [major minor patch].
  destruct (N.compare_spec a x); destruct (N.compare_spec b y);
    destruct (N.compare_spec d z); split; intros H'; try discriminate;
    try reflexivity; try (injection H' as -> -> ->; lia); subst; reflexivity.
Qed.

Lemma satisfies_tilde (v w : SemVer) :
  safe v = true -> safe w = true -> (minor w < MAX_SAFE_INTEGER)%N ->
  satisfies (format v) ("~" ++ format w) = true
  <-> (major v = major w /\ minor v = minor w /\ patch w <= patch v)%N.
Proof.
  intros Hv Hw Hm. unfold satisfies, parse_range, desugar.
  cbn [append]. rewrite Ascii.eqb_refl, (parse_format w Hw).
  unfold tilde. cbn [forallb bound]. rewrite Hw.
  assert (Hup : safe (mkSemVer (major w) (minor w + 1) 0) = true).
  { unfold safe in *. cbn [major minor patch].
    rewrite !andb_true_iff, !N.leb_le in *. lia. }
  rewrite Hup, (parse_format v Hv). cbn [andb forallb test].
  rewrite andb_true_r, andb_true_iff, geb_le, ltb_lt.
  unfold version_le, version_lt. cbn [major minor patch]. lia.
Qed.

Lemma satisfies_caret (v w : SemVer) :
  safe v = true -> safe w = true ->
  (0 < major w < MAX_SAFE_INTEGER)%N ->
  satisfies (format v) ("^" ++ format w) = true
  <-> (major v = major w /\ version_le w v).
Proof.
  intros Hv Hw Hm. unfold satisfies, parse_range, desugar.
  cbn [append]. rewrite Ascii.eqb_refl.
  change (Ascii.eqb "^" "~") with false. cbv iota.
  rewrite (parse_format w Hw). unfold caret.
  destruct (N.eqb_spec (major w) 0) as [E|_]; [lia|].
  cbn [forallb bound]. rewrite Hw.
  assert (Hup : safe (mkSemVer (major w + 1) 0 0) = true).
  { unfold safe. cbn [major minor patch].
    rewrite !andb_true_iff, !N.leb_le. unfold MAX_SAFE_INTEGER in *. lia. }
  rewrite Hup, (parse_format v Hv). cbn [andb forallb test].
  rewrite andb_true_r, andb_true_iff, geb_le, ltb_lt.
  unfold version_le, version_lt. cbn [major minor patch]. lia.
Qed.

End Compare.

(** C5.  When both versions normalize and [allowHigherVersions] is
    set, [compareBrowserSemvers] returns [true] exactly when the
    normalized resolved version is greater than or equal to the
    normalized query version in semantic-version order, whatever
    [ignoreMinor] and [ignorePatch] are.  In particular
    matches("9.0.0", "10.0.0", {allowHigherVersions:true}) = false and
    matches("11.0.0", "10.0.0", {allowHigherVersions:true}) = true. *)
Theorem compareBrowserSemvers_allowHigherVersions :
  (forall (a q a' q' : string) (options : Options),
     semverify (JStr a) = Some a' ->
     semverify (JStr q) = Some q' ->
     truthy (allowHigherVersions options) = true ->
     exists va vq,
       Semver.parse a' = Ok va /\ Semver.parse q' = Ok vq /\
       compareBrowserSemvers a q options = Ok (Semver.geb va vq) /\
       (Semver.geb va vq = true <-> version_le vq va)) /\
  compareBrowserSemvers "9.0.0" "10.0.0" (flags None None (Some true)) = Ok false /\
  compareBrowserSemvers "11.0.0" "10.0.0" (flags None None (Some true)) = Ok true.
Proof.
  split; [|split; reflexivity].
  intros a q a' q' options Ha Hq Hh.
  rewrite (compareBrowserSemvers_normalized a q a' q' options Ha Hq), Hh.
  destruct (semverify_parse _ _ Ha) as (va & -> & Hsa & Hpa).
  destruct (semverify_parse _ _ Hq) as (vq & -> & Hsq & Hpq).
  exists va, vq. repeat split; try assumption.
  - apply SemverFacts.gte_format; assumption.
  - apply SemverFacts.geb_le.
  - apply SemverFacts.geb_le.
Qed.

Lemma compareBrowserSemvers_allowHigherVersions_witness :
  exists va vq,
    Semver.parse "10.4.0" = Ok va /\ Semver.parse "10.10.0" = Ok vq /\
    compareBrowserSemvers "10.4" "10.10"
      (mkOptions None None None (Some true) (Some true) (Some true))
    = Ok (Semver.geb va vq) /\
    (Semver.geb va vq = true <-> version_le vq va).
Proof.
  apply (proj1 compareBrowserSemvers_allowHigherVersions
           "10.4" "10.10" "10.4.0" "10.10.0"); reflexivity.
Defined.

(** C1, as amended.  When both versions normalize and
    [allowHigherVersions] is not set, [compareBrowserSemvers] tests the
    normalized resolved version against a reference range built from the
    normalized query version [q]: [^q] when [ignoreMinor] is set, else
    [~q] when [ignorePatch] is set, else exactly [q].  The two flags are
    tested in the order [ignorePatch], [ignoreMinor], each test
    assigning the range, so when both are set [^q] prevails.  In
    particular matches("10.2.1", "10.2.0", {ignorePatch:true}) = true
    and matches("10.3.0", "10.2.0", {ignorePatch:true}) = false. *)
Theorem compareBrowserSemvers_reference_range :
  (forall (a q a' q' : string) (options : Options),
     semverify (JStr a) = Some a' ->
     semverify (JStr q) = Some q' ->
     truthy (allowHigherVersions options) = false ->
     compareBrowserSemvers a q options
     = Ok (Semver.satisfies a' (reference_range options q'))) /\
  compareBrowserSemvers "10.2.1" "10.2.0" (flags None (Some true) None) = Ok true /\
  compareBrowserSemvers "10.3.0" "10.2.0" (flags None (Some true) None) = Ok false.
Proof.
  split; [|split; reflexivity].
  intros a q a' q' options Ha Hq Hh.
  rewrite (compareBrowserSemvers_normalized a q a' q' options Ha Hq), Hh.
  reflexivity.
Qed.

Lemma compareBrowserSemvers_reference_range_witness :
  compareBrowserSemvers "10.9" "10.2" (flags (Some true) (Some true) None)
  = Ok (Semver.satisfies "10.9.0" "^10.2.0").
Proof.
  apply (proj1 compareBrowserSemvers_reference_range
           "10.9" "10.2" "10.9.0" "10.2.0"); reflexivity.
Defined.

(** With both tolerance flags set the comparator uses [^q], not the
    [~q] of the specification: 10.3.0 matches the query 10.2.0, which
    [~10.2.0] excludes. *)
Lemma compareBrowserSemvers_both_flags_use_caret :
  semverify (JStr "10.3.0") = Some "10.3.0" /\
  semverify (JStr "10.2.0") = Some "10.2.0" /\
  truthy (allowHigherVersions both_tolerances) = false /\
  specified_reference_range both_tolerances "10.2.0" = "~10.2.0" /\
  compareBrowserSemvers "10.3.0" "10.2.0" both_tolerances = Ok true /\
  Semver.satisfies "10.3.0" (specified_reference_range both_tolerances "10.2.0") = false /\
  compareBrowserSemvers "10.3.0" "10.2.0" both_tolerances
  <> Ok (Semver.satisfies "10.3.0" (specified_reference_range both_tolerances "10.2.0")).
Proof.
  split; [reflexivity|]. split; [reflexivity|]. split; [reflexivity|].
  split; [reflexivity|]. split; [reflexivity|]. split; [reflexivity|].
  discriminate.
Qed.

(* ================================================================= *)
(** ** Aliasing a query: [normalizeQuery] *)

Section NormalizeQuery.

Variable aliases : list string.

Lemma first_prefix_Some (s k : string) :
  first_prefix aliases s = Some k ->
  In k aliases /\ s = (k ++ skip (String.length k) s)%string.
Proof.
  unfold first_prefix. intros H. apply find_some in H as [Hin Hp].
  split; [exact Hin | apply prefix_skip, Hp].
Qed.

Lemma first_prefix_None (s : string) :
  first_prefix aliases s = None ->
  forall k, In k aliases -> ~ occurs_after EmptyString k s.
Proof.
  unfold first_prefix. intros H k Hin [b ->].
  pose proof (find_none _ _ H k Hin) as Hp. cbn beta in Hp.
  cbn [append] in Hp. rewrite prefix_append in Hp. discriminate.
Qed.

Lemma match_alternation_Some (s pre k post : string) :
  match_alternation aliases s = Some (pre, k, post) ->
  s = (pre ++ k ++ post)%string /\ In k aliases /\ leftmost aliases pre s
  /\ first_prefix aliases (k ++ post) = Some k.
Proof.
  revert pre. induction s as [|c s IH]; intros pre.
  - cbn [match_alternation].
    destruct (first_prefix aliases EmptyString) as [k0|] eqn:E; [|discriminate].
    intros [= <- <- <-]. destruct (first_prefix_Some _ _ E) as [Hin Hs].
    cbn [append]. rewrite <- Hs. repeat split; auto.
    intros k' a _ _. cbn. lia.
  - cbn [match_alternation].
    destruct (first_prefix aliases (String c s)) as [k0|] eqn:E.
    + intros [= <- <- <-]. destruct (first_prefix_Some _ _ E) as [Hin Hs].
      cbn [append]. rewrite <- Hs. repeat split; auto.
      intros k' a _ _. cbn. lia.
    + destruct (match_alternation aliases s) as [[[pre' k'] post']|] eqn:Em;
        [|discriminate].
      intros [= <- <- <-].
      destruct (IH pre' eq_refl) as (Hs & Hin & Hleft & Hfirst).
      split; [cbn [append]; congruence|]. split; [exact Hin|].
      split; [|exact Hfirst].
      intros k2 a Hin2 [b Hocc]. destruct a as [|d a].
      * exfalso. apply (first_prefix_None _ E k2 Hin2). exists b. exact Hocc.
      * cbn [append] in Hocc. injection Hocc as _ Hocc.
        cbn [String.length]. apply le_n_S, (Hleft k2 a Hin2). exists b. exact Hocc.
Qed.

Lemma match_alternation_None (s : string) :
  match_alternation aliases s = None ->
  forall k a, In k aliases -> ~ occurs_after a k s.
Proof.
  induction s as [|c s IH]; cbn [match_alternation].
  - destruct (first_prefix aliases EmptyString) eqn:E; [discriminate|].
    intros _ k a Hin [b Hocc]. destruct a; [|discriminate Hocc].
    apply (first_prefix_None _ E k Hin). exists b. exact Hocc.
  - destruct (first_prefix aliases (String c s)) eqn:E; [discriminate|].
    destruct (match_alternation aliases s) as [[[? ?] ?]|]; [discriminate|].
    intros _ k a Hin [b Hocc]. destruct a as [|d a].
    + apply (first_prefix_None _ E k Hin). exists b. exact Hocc.
    + cbn [append] in Hocc. injection Hocc as _ Hocc.
      apply (IH eq_refl k a Hin). exists b. exact Hocc.
Qed.

(** Replacing the first occurrence of [k], when it is the one right
    after [pre]. *)
Lemma replace_first (pre k post rep : string) :
  (forall a, occurs_after a k (pre ++ k ++ post) ->
             String.length pre <= String.length a) ->
  replace (pre ++ k ++ post) k rep = (pre ++ rep ++ post)%string.
Proof.
  induction pre as [|c pre IH]; intros Hleft.
  - cbn [append]. destruct (k ++ post)%string eqn:E; cbn [replace]; rewrite <- E;
      rewrite prefix_append, skip_append; reflexivity.
  - cbn [append replace].
    destruct (prefix k (String c (pre ++ k ++ post))) eqn:Ep.
    + apply prefix_skip in Ep.
      assert (String.length (String c pre) <= String.length EmptyString) as Hl.
      { apply Hleft. eexists. cbn [append]. exact Ep. }
      cbn in Hl. lia.
    + f_equal. apply IH. intros a [b Hocc].
      apply le_S_n. apply (Hleft (String c a)). exists b.
      cbn [append]. f_equal. exact Hocc.
Qed.

End NormalizeQuery.

(** The alias keys are made of letters and underscores, so the pattern
    built from them matches them literally; the canonical names hold no
    [$], so [replace] inserts them as they are. *)
Lemma browserNameMap_plain :
  forallb (fun kv => without "$" (snd kv)) browserNameMap = true
  /\ forallb (fun kv =>
                without "|" (fst kv) && without "(" (fst kv) && without ")" (fst kv)
                && without "." (fst kv) && without "*" (fst kv) && without "+" (fst kv)
                && without "?" (fst kv) && without "[" (fst kv)
                && without "^" (fst kv) && without "{" (fst kv))
       browserNameMap = true.
Proof. split; reflexivity. Qed.

Lemma lookup_keys (k : string) (m : list (string * string)) :
  In k (keys m) -> exists v, lookup k m = Some v.
Proof.
  induction m as [|[k0 v0] m IH]; cbn [keys map fst In lookup]; [contradiction|].
  intros [->|Hin].
  - rewrite String.eqb_refl. eauto.
  - destruct (k0 =? k)%string; [eauto | apply IH, Hin].
Qed.

(** C7.  [normalizeQuery] replaces the first occurrence of an alias key
    found as a substring of the query by that key's canonical family
    name and leaves the text before and after it untouched, one
    replacement at most; a query in which no alias key occurs is
    returned unchanged; normalizeQuery("ie 11") = "Explorer 11". *)
Theorem normalizeQuery_first_alias (query : string) :
  ((forall k a, In k (keys browserNameMap) -> ~ occurs_after a k query) ->
   normalizeQuery query = query)
  /\
  (forall k a, In k (keys browserNameMap) -> occurs_after a k query ->
   exists pre key canonical post,
     query = (pre ++ key ++ post)%string
     /\ lookup key browserNameMap = Some canonical
     /\ leftmost (keys browserNameMap) pre query
     /\ first_prefix (keys browserNameMap) (key ++ post) = Some key
     /\ normalizeQuery query = (pre ++ canonical ++ post)%string)
  /\ normalizeQuery "ie 11" = "Explorer 11"
  /\ normalizeQuery "ie 11, ff 60" = "Explorer 11, ff 60".
Proof.
  split; [|split; [|split; reflexivity]].
  - intros Hnone. unfold normalizeQuery.
    destruct (match_alternation (keys browserNameMap) query)
      as [[[pre key] post]|] eqn:E; [|reflexivity].
    apply match_alternation_Some in E as (Hq & Hin & _).
    exfalso. apply (Hnone key pre Hin). exists post. exact Hq.
  - intros k a Hin Hocc. unfold normalizeQuery.
    destruct (match_alternation (keys browserNameMap) query)
      as [[[pre key] post]|] eqn:E.
    + apply match_alternation_Some in E as (Hq & Hkey & Hleft & Hfirst).
      destruct (lookup_keys key browserNameMap Hkey) as [canonical Hc].
      exists pre, key, canonical, post. rewrite Hc.
      repeat split; try assumption.
      rewrite Hq. apply replace_first. rewrite <- Hq.
      intros a' Ha'. apply (Hleft key a' Hkey Ha').
    + exfalso. apply (match_alternation_None _ _ E k a Hin Hocc).
Qed.

Lemma normalizeQuery_first_alias_witness :
  normalizeQuery "last 2 versions" = "last 2 versions"
  /\ exists pre key canonical post,
       "and_ff 68, ie 11" = (pre ++ key ++ post)%string
       /\ lookup key browserNameMap = Some canonical
       /\ leftmost (keys browserNameMap) pre "and_ff 68, ie 11"
       /\ first_prefix (keys browserNameMap) (key ++ post) = Some key
       /\ normalizeQuery "and_ff 68, ie 11" = (pre ++ canonical ++ post)%string.
Proof.
  split.
  - apply (proj1 (normalizeQuery_first_alias "last 2 versions")).
    intros k a Hin [b Hocc].
    assert (match_alternation (keys browserNameMap) "last 2 versions" = None)
      as Hnone by reflexivity.
    apply (match_alternation_None _ _ Hnone k a Hin). exists b. exact Hocc.
  - apply (proj1 (proj2 (normalizeQuery_first_alias "and_ff 68, ie 11")) "ff" "and_").
    + cbn. tauto.
    + exists " 68, ie 11". reflexivity.
Defined.

(* ================================================================= *)
(** ** Expanding a range: [generateSemversInRange] *)

Section RangeLoop.

Import Semver SemverFacts.

Lemma minor_step_succ (start : SemVer) (j : nat) :
  mkSemVer (major (minor_step start j)) (minor (minor_step start j) + 1) 0
  = minor_step start (S j).
Proof.
  destruct j as [|j]; cbn [minor_step major minor]; f_equal; lia.
Qed.

Lemma gte_Ok (a b : string) (r : bool) :
  gte a b = Ok r ->
  exists va vb, parse a = Ok va /\ parse b = Ok vb /\ r = geb va vb.
Proof.
  unfold gte. destruct (parse a) as [va| |]; try discriminate.
  destruct (parse b) as [vb| |]; try discriminate.
  intros [= <-]. eauto.
Qed.

Lemma gte_not_out_of_fuel (a b : string) : gte a b <> OutOfFuel.
Proof.
  unfold gte. pose proof (parse_never_out_of_fuel a).
  pose proof (parse_never_out_of_fuel b).
  destruct (parse a); cbn; try congruence. destruct (parse b); cbn; congruence.
Qed.

Variable endSemver : string.
Variable start : SemVer.

Lemma inc_minor_step (j : nat) (r : bool) :
  gte endSemver (version_at start j) = Ok r ->
  inc_minor (version_at start j) = Some (version_at start (S j)).
Proof.
  intros H. apply gte_Ok in H as (_ & v & _ & Hv & _).
  apply parse_Ok in Hv as [Hf Hs]. apply format_inj in Hf. subst v.
  unfold version_at. rewrite (inc_minor_format _ Hs), minor_step_succ.
  reflexivity.
Qed.

(** The loop, started at the [j]-th version with enough budget, pushes
    the versions for which the condition holds and stops at the first
    for which it does not. *)
Lemma range_loop_steps (k : nat) :
  forall fuel j acc,
    k < fuel ->
    (forall i, i < k -> gte endSemver (version_at start (j + i)) = Ok true) ->
    gte endSemver (version_at start (j + k)) = Ok false ->
    range_loop fuel endSemver (version_at start j) acc
    = Ok (acc ++ map (version_at start) (seq j k)).
Proof.
  induction k as [|k IH]; intros fuel j acc Hfuel Htrue Hfalse;
    (destruct fuel as [|fuel]; [lia|]); cbn [range_loop].
  - rewrite Nat.add_0_r in Hfalse. rewrite Hfalse. cbn.
    rewrite app_nil_r. reflexivity.
  - pose proof (Htrue 0 ltac:(lia)) as H0. rewrite Nat.add_0_r in H0.
    rewrite H0. cbn [bind]. rewrite (inc_minor_step j true H0).
    rewrite (IH fuel (S j) (acc ++ [version_at start j])).
    + cbn [seq map]. rewrite <- app_assoc. reflexivity.
    + lia.
    + intros i Hi. replace (S j + i) with (j + S i) by lia.
      apply Htrue. lia.
    + replace (S j + k) with (j + S k) by lia. exact Hfalse.
Qed.

(** Conversely, a loop that returns has stopped at such a version. *)
Lemma range_loop_Ok (fuel : nat) :
  forall j acc l,
    range_loop fuel endSemver (version_at start j) acc = Ok l ->
    exists k,
      k < fuel /\
      (forall i, i < k -> gte endSemver (version_at start (j + i)) = Ok true) /\
      gte endSemver (version_at start (j + k)) = Ok false /\
      l = acc ++ map (version_at start) (seq j k).
Proof.
  induction fuel as [|fuel IH]; intros j acc l; cbn [range_loop]; [discriminate|].
  destruct (gte endSemver (version_at start j)) as [[|]| |] eqn:Hg;
    cbn [bind]; try discriminate.
  - rewrite (inc_minor_step j true Hg). intros Hl.
    destruct (IH (S j) _ l Hl) as (k & Hk & Htrue & Hfalse & ->).
    exists (S k). split; [lia|]. split; [|split].
    + intros [|i] Hi; [rewrite Nat.add_0_r; exact Hg|].
      replace (j + S i) with (S j + i) by lia. apply Htrue. lia.
    + replace (j + S k) with (S j + k) by lia. exact Hfalse.
    + cbn [seq map]. rewrite <- app_assoc. reflexivity.
  - intros [= <-]. exists 0. split; [lia|]. split; [intros i Hi; lia|].
    split; [rewrite Nat.add_0_r; exact Hg|]. cbn. rewrite app_nil_r. reflexivity.
Qed.

(** While the major version of the end is above that of the current
    version the condition never fails, and the loop never returns. *)
Lemma range_loop_below_major (ve : SemVer) :
  parse endSemver = Ok ve -> (major start < major ve)%N ->
  forall fuel j acc, exists r,
    range_loop fuel endSemver (version_at start j) acc = r /\ is_ok r = false.
Proof.
  intros He Hlt fuel. induction fuel as [|fuel IH]; intros j acc.
  - eexists; split; reflexivity.
  - cbn [range_loop].
    destruct (gte endSemver (version_at start j)) as [r| |] eqn:Hg;
      [|eexists; split; reflexivity..].
    pose proof (inc_minor_step j r Hg) as Hinc.
    apply gte_Ok in Hg as (ve' & v & He' & Hv & ->).
    rewrite He in He'. injection He' as <-.
    apply parse_Ok in Hv as [Hf _]. apply format_inj in Hf. subst v.
    assert (geb ve (minor_step start j) = true) as ->.
    { apply geb_le. left. destruct j; cbn [minor_step major]; exact Hlt. }
    cbn [bind]. rewrite Hinc. apply IH.
Qed.

End RangeLoop.

Section GenerateSemversInRange.

Import Semver SemverFacts.

Lemma generateSemversInRange_unfold (fuel : nat) (versionRange : string) :
  generateSemversInRange fuel versionRange
  = match semverify (at_index (split "-" versionRange) 0),
          semverify (at_index (split "-" versionRange) 1) with
    | Some s, Some e => range_loop fuel e s []
    | _, _ => Ok []
    end.
Proof.
  unfold generateSemversInRange. rewrite !truthy_str_semverify. reflexivity.
Qed.

Lemma safe_le_gte (v e : SemVer) :
  safe v = true -> safe e = true -> version_le v e ->
  gte (format e) (format v) = Ok true.
Proof.
  intros Hv He Hle. rewrite (gte_format e v He Hv). f_equal.
  apply geb_le, Hle.
Qed.

Lemma safe_lt_gte (v e : SemVer) :
  safe v = true -> safe e = true -> version_lt e v ->
  gte (format e) (format v) = Ok false.
Proof.
  intros Hv He Hlt. rewrite (gte_format e v He Hv). f_equal.
  apply geb_false_lt, Hlt.
Qed.

(** The result of the expansion when the condition [end >= current]
    first fails at the [k]-th version. *)
Lemma generateSemversInRange_steps (versionRange s e : string) (vs ve : SemVer) (k : nat) :
  semverify (at_index (split "-" versionRange) 0) = Some s ->
  semverify (at_index (split "-" versionRange) 1) = Some e ->
  parse s = Ok vs -> parse e = Ok ve ->
  (forall j, j < k -> safe (minor_step vs j) = true /\ version_le (minor_step vs j) ve) ->
  safe (minor_step vs k) = true -> version_lt ve (minor_step vs k) ->
  forall fuel, k < fuel ->
  generateSemversInRange fuel versionRange
  = Ok (map (fun j => format (minor_step vs j)) (seq 0 k)).
Proof.
  intros Hs He Hps Hpe Hle Hsafe Hlt fuel Hfuel.
  rewrite generateSemversInRange_unfold, Hs, He.
  apply parse_Ok in Hps as [-> Hss]. apply parse_Ok in Hpe as [-> Hse].
  apply (range_loop_steps (format ve) vs k fuel 0 [] Hfuel).
  - intros i Hi. destruct (Hle i Hi) as [Hsi Hlei].
    apply safe_le_gte; assumption.
  - apply safe_lt_gte; assumption.
Qed.

Lemma gte_format_Ok (v e : SemVer) (r : bool) :
  gte (format e) (format v) = Ok r ->
  safe v = true /\ safe e = true /\ r = geb e v.
Proof.
  intros H. apply gte_Ok in H as (e' & v' & He & Hv & ->).
  apply parse_Ok in He as [He Hse]. apply parse_Ok in Hv as [Hv Hsv].
  apply format_inj in He, Hv. subst. auto.
Qed.

(** The expansion returns exactly such an enumeration. *)
Lemma generateSemversInRange_Ok (versionRange s e : string) (vs ve : SemVer) :
  semverify (at_index (split "-" versionRange) 0) = Some s ->
  semverify (at_index (split "-" versionRange) 1) = Some e ->
  parse s = Ok vs -> parse e = Ok ve ->
  forall fuel l,
    generateSemversInRange fuel versionRange = Ok l <->
    exists k, k < fuel /\ stops_at vs ve k /\ l = map (version_at vs) (seq 0 k).
Proof.
  intros Hs He Hps Hpe fuel l. split.
  - rewrite generateSemversInRange_unfold, Hs, He.
    pose proof (parse_Ok _ _ Hps) as [-> _]. pose proof (parse_Ok _ _ Hpe) as [-> _].
    intros Hl. apply (range_loop_Ok (format ve) vs fuel 0 [] l) in Hl
      as (k & Hk & Htrue & Hfalse & ->).
    exists k. split; [exact Hk|]. split; [|reflexivity].
    split; [|split].
    + intros j Hj. specialize (Htrue j Hj). cbn [Nat.add] in Htrue.
      apply gte_format_Ok in Htrue as (Hsv & _ & Hg).
      split; [exact Hsv|]. apply geb_le. congruence.
    + cbn [Nat.add] in Hfalse. apply gte_format_Ok in Hfalse as (Hsv & _ & _).
      exact Hsv.
    + cbn [Nat.add] in Hfalse. apply gte_format_Ok in Hfalse as (_ & _ & Hg).
      apply geb_false_lt. congruence.
  - intros (k & Hk & (Hle & Hsafe & Hlt) & ->).
    apply (generateSemversInRange_steps versionRange s e vs ve k Hs He Hps Hpe
             Hle Hsafe Hlt fuel Hk).
Qed.

(** A range whose end has a greater major version than its start is
    never expanded: the minor increments stay below the end. *)
Lemma generateSemversInRange_below_major (versionRange s e : string) (vs ve : SemVer) :
  semverify (at_index (split "-" versionRange) 0) = Some s ->
  semverify (at_index (split "-" versionRange) 1) = Some e ->
  parse s = Ok vs -> parse e = Ok ve ->
  (major vs < major ve)%N ->
  forall fuel, is_ok (generateSemversInRange fuel versionRange) = false.
Proof.
  intros Hs He Hps Hpe Hlt fuel.
  rewrite generateSemversInRange_unfold, Hs, He.
  apply parse_Ok in Hps as [-> _].
  destruct (range_loop_below_major e vs ve Hpe Hlt fuel 0 []) as (r & Hr & Hok).
  unfold version_at in Hr. cbn [minor_step] in Hr. rewrite Hr. exact Hok.
Qed.

(** When the end is not in a later major version than the start the
    expansion returns, as long as the version after the last one is
    still a valid version. *)
Lemma generateSemversInRange_same_major (versionRange s e : string) (vs ve : SemVer) :
  semverify (at_index (split "-" versionRange) 0) = Some s ->
  semverify (at_index (split "-" versionRange) 1) = Some e ->
  parse s = Ok vs -> parse e = Ok ve ->
  (major ve <= major vs)%N -> (minor ve < MAX_SAFE_INTEGER)%N ->
  exists k, forall fuel, k < fuel ->
    generateSemversInRange fuel versionRange
    = Ok (map (fun j => format (minor_step vs j)) (seq 0 k)).
Proof.
  intros Hs He Hps Hpe Hmaj Hmin.
  pose proof (parse_Ok _ _ Hps) as [_ Hss].
  pose proof (parse_Ok _ _ Hpe) as [_ Hse].
  assert (Hcomp : forall a b c, safe (mkSemVer a b c) = true <->
            (a <= MAX_SAFE_INTEGER /\ b <= MAX_SAFE_INTEGER /\ c <= MAX_SAFE_INTEGER)%N).
  { intros. unfold safe. cbn [major minor patch].
    rewrite !andb_true_iff, !N.leb_le. tauto. }
  destruct vs as [a b c], ve as [x y z]. cbn [major minor] in Hmaj, Hmin.
  apply Hcomp in Hss, Hse.
  destruct (geb (mkSemVer x y z) (mkSemVer a b c)) eqn:Hg.
  - apply geb_le in Hg. unfold version_le in Hg. cbn [major minor patch] in Hg.
    assert (a = x) as -> by lia.
    exists (S (N.to_nat (y - b))).
    apply (generateSemversInRange_steps versionRange s e _ _ _ Hs He Hps Hpe).
    + intros [|j] Hj; cbn [minor_step major minor]; unfold version_le;
        rewrite Hcomp; cbn [major minor patch]; lia.
    + cbn [minor_step major minor]. rewrite Hcomp. unfold MAX_SAFE_INTEGER in *. lia.
    + unfold version_lt. cbn [minor_step major minor patch]. lia.
  - apply geb_false_lt in Hg. exists 0.
    apply (generateSemversInRange_steps versionRange s e _ _ _ Hs He Hps Hpe).
    + intros j Hj. lia.
    + cbn [minor_step]. apply Hcomp. exact Hss.
    + exact Hg.
Qed.

Lemma generateSemversInRange_sample (fuel : nat) :
  3 < fuel ->
  generateSemversInRange fuel "10.0-10.2" = Ok ["10.0.0"; "10.1.0"; "10.2.0"].
Proof.
  intros Hfuel.
  apply (generateSemversInRange_steps "10.0-10.2" "10.0.0" "10.2.0"
           (mkSemVer 10 0 0) (mkSemVer 10 2 0) 3);
    try reflexivity; try exact Hfuel.
  - intros [|[|[|j]]] Hj; try lia; (split; [reflexivity|]);
      unfold version_le; cbn; lia.
  - unfold version_lt; cbn; lia.
Qed.

End GenerateSemversInRange.

(** *** Step budgets

    A larger budget never changes a result or an exception. *)
Section Budget.

Lemma range_loop_more_fuel (fuel : nat) :
  forall fuel' endSemver curVersion acc,
    fuel <= fuel' ->
    range_loop fuel endSemver curVersion acc <> OutOfFuel ->
    range_loop fuel' endSemver curVersion acc
    = range_loop fuel endSemver curVersion acc.
Proof.
  induction fuel as [|fuel IH]; intros fuel' e cur acc Hle Hdone.
  - now destruct Hdone.
  - destruct fuel' as [|fuel']; [lia|]. cbn [range_loop] in *.
    destruct (Semver.gte e cur) as [[|]| |]; cbn [bind] in *; try reflexivity.
    destruct (Semver.inc_minor cur); [|reflexivity].
    apply IH; [lia | exact Hdone].
Qed.

Lemma generateSemversInRange_more_fuel (fuel fuel' : nat) (versionRange : string) :
  fuel <= fuel' ->
  generateSemversInRange fuel versionRange <> OutOfFuel ->
  generateSemversInRange fuel' versionRange = generateSemversInRange fuel versionRange.
Proof.
  unfold generateSemversInRange. intros Hle.
  destruct (truthy_str (semverify (at_index (split "-" versionRange) 0)));
    [|reflexivity].
  destruct (truthy_str (semverify (at_index (split "-" versionRange) 1)));
    [|reflexivity].
  apply range_loop_more_fuel, Hle.
Qed.

End Budget.



(** C9, at the failing input.  The two boundaries of "1.0-2.0"
    normalize, yet no budget makes the expansion return: every minor
    increment of 1.0.0 is below 2.0.0, so the condition
    [end >= current] never fails. *)
Theorem generateSemversInRange_cross_major_never_returns :
  semverify (at_index (split "-" "1.0-2.0") 0) = Some "1.0.0" /\
  semverify (at_index (split "-" "1.0-2.0") 1) = Some "2.0.0" /\
  (forall fuel versions, generateSemversInRange fuel "1.0-2.0" <> Ok versions) /\
  generateSemversInRange 1000 "1.0-2.0" = OutOfFuel.
Proof.
  split; [reflexivity|]. split; [reflexivity|]. split; [|vm_compute; reflexivity].
  intros fuel versions H.
  pose proof (generateSemversInRange_below_major "1.0-2.0" "1.0.0" "2.0.0"
                (Semver.mkSemVer 1 0 0) (Semver.mkSemVer 2 0 0)
                eq_refl eq_refl eq_refl eq_refl eq_refl fuel) as Hnot.
  rewrite H in Hnot. discriminate.
Qed.

(* ================================================================= *)
(** ** Parsing the query results: [parseBrowsersList] *)

Section ParseBrowsersList.

Lemma split_before_after (c : ascii) (s : string) :
  split c s = before c s :: match after c s with
                            | Some rest => split c rest
                            | None => []
                            end.
Proof.
  induction s as [|d s IH]; cbn [split before after]; [reflexivity|].
  destruct (Ascii.eqb d c); [reflexivity|]. rewrite IH. reflexivity.
Qed.

Lemma after_without (c : ascii) (s : string) :
  without c s = true -> after c s = None /\ before c s = s.
Proof.
  induction s as [|d s IH]; cbn [without after before]; intros H; [auto|].
  apply andb_prop in H as [Hd Hs]. apply negb_true_iff in Hd. rewrite Hd.
  destruct (IH Hs) as [-> ->]. auto.
Qed.

Lemma split_entry_spec (entry : string) :
  split_entry entry
  = (before " " entry,
     match after " " entry with
     | Some rest => JStr (before " " rest)
     | None => JUndefined
     end).
Proof.
  unfold split_entry. rewrite (split_before_after " " entry). f_equal.
  destruct (after " " entry) as [rest|]; [|reflexivity].
  rewrite (split_before_after " " rest). reflexivity.
Qed.

Lemma bind_assoc {A B C} (m : outcome A) (f : A -> outcome B) (g : B -> outcome C) :
  bind (bind m f) g = bind m (fun x => bind (f x) g).
Proof. destruct m; reflexivity. Qed.

Lemma bind_ext {A B} (m : outcome A) (f g : A -> outcome B) :
  (forall x, f x = g x) -> bind m f = bind m g.
Proof. intros H. destruct m; cbn; auto. Qed.

Lemma bind_Ok_r {A} (m : outcome A) : bind m Ok = m.
Proof. destruct m; reflexivity. Qed.

(** The pipeline [map], [filter], [map], [flat] handles the entries
    one after the other. *)
Lemma parseBrowsersList_cons (fuel : nat) (entry : string) (rest : list string) :
  parseBrowsersList fuel (entry :: rest)
  = (r <- entry_result fuel entry ;;
     rs <- parseBrowsersList fuel rest ;;
     Ok (r ++ rs)).
Proof.
  unfold parseBrowsersList, entry_result. cbn [map filter].
  rewrite split_entry_spec. unfold not_TP at 1. cbn [snd].
  destruct (after " " entry) as [tail|]; [|reflexivity].
  cbn [is_str]. destruct (before " " tail =? "TP")%string eqn:Etp.
  - cbn [negb bind app]. rewrite bind_assoc. apply bind_ext.
    intros x. reflexivity.
  - cbn [negb map_outcome expand_entry].
    destruct (0 <? indexOf "-" (before " " tail))%Z.
    + rewrite !bind_assoc. apply bind_ext. intros versions. cbn [bind].
      rewrite !bind_assoc. apply bind_ext. intros items. cbn [bind].
      reflexivity.
    + cbn [bind]. rewrite !bind_assoc. apply bind_ext. intros items.
      reflexivity.
Qed.

Lemma parseBrowsersList_nil (fuel : nat) : parseBrowsersList fuel [] = Ok [].
Proof. reflexivity. Qed.

Lemma parseBrowsersList_app (fuel : nat) (l1 l2 : list string) :
  parseBrowsersList fuel (l1 ++ l2)
  = (r1 <- parseBrowsersList fuel l1 ;;
     r2 <- parseBrowsersList fuel l2 ;;
     Ok (r1 ++ r2)).
Proof.
  induction l1 as [|entry l1 IH].
  - cbn [app]. rewrite parseBrowsersList_nil. cbn [bind app].
    symmetry. apply bind_Ok_r.
  - cbn [app]. rewrite !parseBrowsersList_cons, IH, !bind_assoc.
    apply bind_ext. intros r. rewrite !bind_assoc. apply bind_ext. intros r1.
    cbn [bind]. rewrite !bind_assoc. apply bind_ext. intros r2. cbn [bind].
    rewrite app_assoc. reflexivity.
Qed.

Lemma entry_result_without_space (fuel : nat) (entry : string) :
  without " " entry = true ->
  entry_result fuel entry
  = Throw (TypeError "Cannot read properties of undefined (reading 'indexOf')").
Proof.
  intros H. unfold entry_result. destruct (after_without " " entry H) as [-> _].
  reflexivity.
Qed.

Lemma entry_result_more_fuel (fuel fuel' : nat) (entry : string) :
  fuel <= fuel' ->
  entry_result fuel entry <> OutOfFuel ->
  entry_result fuel' entry = entry_result fuel entry.
Proof.
  unfold entry_result. intros Hle.
  destruct (after " " entry) as [tail|]; [|reflexivity].
  destruct (before " " tail =? "TP")%string; [reflexivity|].
  destruct (0 <? indexOf "-" (before " " tail))%Z; [|reflexivity].
  intros Hdone.
  rewrite (generateSemversInRange_more_fuel fuel fuel' _ Hle); [reflexivity|].
  intros H. rewrite H in Hdone. now apply Hdone.
Qed.

Lemma parseBrowsersList_more_fuel (fuel fuel' : nat) (browsersList : list string) :
  fuel <= fuel' ->
  parseBrowsersList fuel browsersList <> OutOfFuel ->
  parseBrowsersList fuel' browsersList = parseBrowsersList fuel browsersList.
Proof.
  intros Hle. induction browsersList as [|entry rest IH]; [reflexivity|].
  rewrite !parseBrowsersList_cons. intros Hdone.
  rewrite (entry_result_more_fuel fuel fuel' entry Hle).
  - destruct (entry_result fuel entry) as [r| |]; cbn [bind] in *; try reflexivity.
    rewrite IH; [reflexivity|].
    intros H. rewrite H in Hdone. now apply Hdone.
  - intros H. rewrite H in Hdone. now apply Hdone.
Qed.

End ParseBrowsersList.

Lemma parseBrowsersList_sample (fuel : nat) :
  3 < fuel ->
  parseBrowsersList fuel sample_query_results
  = Ok [Entry.mk (FStr "Explorer") "11"; Entry.mk (FStr "chrome") "10.0.0";
        Entry.mk (FStr "chrome") "10.1.0"; Entry.mk (FStr "chrome") "10.2.0"].
Proof.
  intros Hfuel. unfold sample_query_results.
  rewrite !parseBrowsersList_cons, parseBrowsersList_nil.
  assert (Hrange : entry_result fuel "chrome 10.0-10.2"
                   = Ok [Entry.mk (FStr "chrome") "10.0.0"; Entry.mk (FStr "chrome") "10.1.0";
                         Entry.mk (FStr "chrome") "10.2.0"]).
  { unfold entry_result.
    change (after " " "chrome 10.0-10.2") with (Some "10.0-10.2").
    cbv beta iota zeta.
    change (before " " "10.0-10.2") with "10.0-10.2".
    change ("10.0-10.2" =? "TP")%string with false.
    change (0 <? indexOf "-" "10.0-10.2")%Z with true. cbv iota.
    rewrite (generateSemversInRange_sample fuel Hfuel). reflexivity. }
  rewrite Hrange. reflexivity.
Qed.

(** The name stored for an entry, by cases on the name. *)
Lemma normalized_name_key (name canonical : string) :
  lookup name browserNameMap = Some canonical ->
  normalized_name name = FStr canonical.
Proof. intros H. unfold normalized_name. rewrite H. reflexivity. Qed.

Lemma normalized_name_other (name : string) :
  lookup name browserNameMap = None -> inherited name = false ->
  normalized_name name = FStr name.
Proof. intros H Hi. unfold normalized_name. rewrite H, Hi. reflexivity. Qed.

Lemma normalized_name_string (name : string) :
  inherited name = false ->
  match normalized_name name with FStr _ => true | FInherited _ => false end = true.
Proof.
  intros H. unfold normalized_name. rewrite H.
  destruct (lookup name browserNameMap); reflexivity.
Qed.

Lemma normalized_name_inherited (name : string) :
  inherited name = true -> normalized_name name = FInherited name.
Proof.
  intros H. unfold normalized_name.
  assert (Hkey : lookup name browserNameMap = None).
  { unfold inherited in H. apply existsb_exists in H as (key & Hin & Heq).
    apply String.eqb_eq in Heq. subst key.
    cbn [object_prototype_names In] in Hin.
    repeat (destruct Hin as [<-|Hin]; [reflexivity|]). destruct Hin. }
  rewrite Hkey, H. reflexivity.
Qed.

(** C3, as amended.  [parseBrowsersList] handles the query results in
    order.  Each entry is split at its spaces; the name is the text
    before the first space and the version the text between the first
    space and the next one (the rest of the entry when there is one
    space only).  An entry whose version is "TP" is dropped; the name
    is replaced by its alias when it is a key of the alias map, and
    kept as it is when it is neither such a key nor a property name
    that every object inherits; a version with a hyphen at a position
    above 0 is expanded, in place, into one entry per expanded version;
    any other version is kept unchanged.  In particular
    parse(["ie 11", "chrome 10.0-10.2", "firefox TP"]) is
    [{Explorer,11}, {chrome,10.0.0}, {chrome,10.1.0}, {chrome,10.2.0}]:
    "chrome" is no alias key and stays in lower case. *)
Theorem parseBrowsersList_entries :
  (forall fuel, parseBrowsersList fuel [] = Ok []) /\
  (forall fuel entry rest,
     parseBrowsersList fuel (entry :: rest)
     = (r <- entry_result fuel entry ;;
        rs <- parseBrowsersList fuel rest ;;
        Ok (r ++ rs))) /\
  (forall name canonical,
     lookup name browserNameMap = Some canonical ->
     normalized_name name = FStr canonical) /\
  (forall name,
     lookup name browserNameMap = None -> inherited name = false ->
     normalized_name name = FStr name) /\
  (forall fuel, 3 < fuel ->
     parseBrowsersList fuel sample_query_results
     = Ok [Entry.mk (FStr "Explorer") "11"; Entry.mk (FStr "chrome") "10.0.0";
           Entry.mk (FStr "chrome") "10.1.0"; Entry.mk (FStr "chrome") "10.2.0"]).
Proof.
  split; [exact parseBrowsersList_nil|]. split; [exact parseBrowsersList_cons|].
  split; [exact normalized_name_key|]. split; [exact normalized_name_other|].
  exact parseBrowsersList_sample.
Qed.

Lemma parseBrowsersList_entries_witness :
  normalized_name "ie" = FStr "Explorer" /\
  normalized_name "chrome" = FStr "chrome" /\
  parseBrowsersList 4 sample_query_results
  = Ok [Entry.mk (FStr "Explorer") "11"; Entry.mk (FStr "chrome") "10.0.0";
        Entry.mk (FStr "chrome") "10.1.0"; Entry.mk (FStr "chrome") "10.2.0"].
Proof.
  destruct parseBrowsersList_entries as (_ & _ & Hkey & Hother & Hsample).
  split; [apply Hkey; reflexivity|].
  split; [apply Hother; reflexivity|].
  apply (Hsample 4). lia.
Defined.

(** The parsed sample keeps the name "chrome" as the resolver wrote it,
    so it is not the list of the specification; and the version of an
    entry ends at its second space: the text after the first space of
    "ie 11 beta" is "11 beta", the parsed version is "11". *)
Lemma parseBrowsersList_differs_from_specified :
  (forall fuel, parseBrowsersList fuel sample_query_results
                <> Ok specified_sample_entries) /\
  lookup "chrome" browserNameMap = None /\
  after " " "ie 11 beta" = Some "11 beta" /\
  parseBrowsersList 1 ["ie 11 beta"] = Ok [Entry.mk (FStr "Explorer") "11"] /\
  parseBrowsersList 1 ["ie 11 beta"] <> Ok [Entry.mk (FStr "Explorer") "11 beta"].
Proof.
  split.
  - intros [|[|[|[|fuel]]]].
    1-4: vm_compute; discriminate.
    rewrite parseBrowsersList_sample by lia. discriminate.
  - split; [reflexivity|]. split; [reflexivity|]. split; [reflexivity|].
    discriminate.
Qed.

(** C10.  [parseBrowsersList] returns only when every entry contains a
    space.  For an entry without a space the split yields an undefined
    version, the entry passes the "TP" filter, and the hyphen test
    dereferences [undefined]: a [TypeError].  So a list that contains
    such an entry never yields a result (the entry is not dropped),
    and evaluation throws as soon as the entries before it have been
    handled. *)
Theorem parseBrowsersList_entry_without_space
    (fuel : nat) (front back : list string) (entry : string) :
  without " " entry = true ->
  split_entry entry = (entry, JUndefined) /\
  not_TP (split_entry entry) = true /\
  expand_entry fuel (split_entry entry)
  = Throw (TypeError "Cannot read properties of undefined (reading 'indexOf')") /\
  parseBrowsersList fuel (front ++ entry :: back)
  = (_ <- parseBrowsersList fuel front ;;
     Throw (TypeError "Cannot read properties of undefined (reading 'indexOf')")) /\
  (forall entries, parseBrowsersList fuel (front ++ entry :: back) <> Ok entries) /\
  (forall entries, parseBrowsersList fuel front = Ok entries ->
     parseBrowsersList fuel (front ++ entry :: back)
     = Throw (TypeError "Cannot read properties of undefined (reading 'indexOf')")).
Proof.
  intros Hspace.
  assert (Hsplit : split_entry entry = (entry, JUndefined)).
  { rewrite split_entry_spec. destruct (after_without " " entry Hspace) as [-> ->].
    reflexivity. }
  assert (Hall : parseBrowsersList fuel (front ++ entry :: back)
                 = (_ <- parseBrowsersList fuel front ;;
                    Throw (TypeError "Cannot read properties of undefined (reading 'indexOf')"))).
  { rewrite parseBrowsersList_app, parseBrowsersList_cons.
    rewrite (entry_result_without_space fuel entry Hspace). reflexivity. }
  split; [exact Hsplit|]. rewrite Hsplit.
  split; [reflexivity|]. split; [reflexivity|]. split; [exact Hall|]. split.
  - intros entries. rewrite Hall.
    destruct (parseBrowsersList fuel front); discriminate.
  - intros entries Hfront. rewrite Hall, Hfront. reflexivity.
Qed.

Lemma parseBrowsersList_entry_without_space_witness :
  parseBrowsersList 4 (["ie 11"; "chrome 10.0-10.2"] ++ "firefox" :: ["edge 18"])
  = Throw (TypeError "Cannot read properties of undefined (reading 'indexOf')").
Proof.
  destruct (parseBrowsersList_entry_without_space
              4 ["ie 11"; "chrome 10.0-10.2"] ["edge 18"] "firefox" eq_refl)
    as (_ & _ & _ & _ & _ & Hthrow).
  apply (Hthrow [Entry.mk (FStr "Explorer") "11"; Entry.mk (FStr "chrome") "10.0.0";
                 Entry.mk (FStr "chrome") "10.1.0"; Entry.mk (FStr "chrome") "10.2.0"]).
  reflexivity.
Defined.

(* ================================================================= *)
(** ** The orchestrator: [matchesUA] *)

Section MatchesUA.

Lemma some_all_false {A} (f : A -> outcome bool) (l : list A) :
  (forall x, f x = Ok false) -> some f l = Ok false.
Proof.
  intros H. induction l as [|x l IH]; cbn [some]; [reflexivity|].
  rewrite H. exact IH.
Qed.

Lemma truthy_str_None (v : option string) : v = None -> truthy_str v = None.
Proof. intros ->. reflexivity. Qed.

Lemma matchesUA_empty (fuel : nat) (host : Host) (opts : Options) :
  matchesUA fuel host EmptyString opts = Ok false.
Proof. reflexivity. Qed.

Lemma matchesUA_unresolved (fuel : nat) (host : Host) (uaString : string)
    (opts : Options) (entries : list Entry.t) :
  policy_entries fuel host opts = Ok entries ->
  Agent.family (resolveUserAgent host uaString) = None
  \/ Agent.version (resolveUserAgent host uaString) = None ->
  matchesUA fuel host uaString opts = Ok false.
Proof.
  intros Hentries Hnull. unfold matchesUA.
  destruct (uaString =? EmptyString)%string; [reflexivity|].
  unfold policy_entries in Hentries.
  destruct (browserslist host _ _ _) as [raw| |]; try discriminate.
  cbn [bind] in Hentries |- *. rewrite Hentries. cbn [bind].
  apply some_all_false. intros browser.
  destruct Hnull as [H|H]; rewrite (truthy_str_None _ H); [reflexivity|].
  destruct (truthy_str (Agent.family _)); reflexivity.
Qed.

End MatchesUA.

(** C8, at the failing input.  The UA parser detects nothing in the
    UA string, so family and version resolve to null, and the resolver
    returns the one result "chrome 1.0-2.0".  The query results are
    parsed before the agent is looked at, and the expansion of the
    range 1.0-2.0 never returns: no budget makes [matchesUA] return
    [false], or anything else. *)
Theorem matchesUA_cross_major_range_never_returns :
  Agent.family (resolveUserAgent host_cross_major "Mozilla/5.0") = None /\
  Agent.version (resolveUserAgent host_cross_major "Mozilla/5.0") = None /\
  (forall fuel b,
     matchesUA fuel host_cross_major "Mozilla/5.0" no_options <> Ok b) /\
  matchesUA 1000 host_cross_major "Mozilla/5.0" no_options = OutOfFuel.
Proof.
  split; [reflexivity|]. split; [reflexivity|].
  split; [|vm_compute; reflexivity].
  intros fuel b. unfold matchesUA.
  change ("Mozilla/5.0" =? EmptyString)%string with false. cbv iota.
  cbn [browserslist host_cross_major bind].
  rewrite (parseBrowsersList_cons fuel "chrome 1.0-2.0" []).
  unfold entry_result.
  change (after " " "chrome 1.0-2.0") with (Some "1.0-2.0").
  cbv beta iota zeta.
  change (before " " "1.0-2.0") with "1.0-2.0".
  change ("1.0-2.0" =? "TP")%string with false.
  change (0 <? indexOf "-" "1.0-2.0")%Z with true. cbv iota.
  pose proof (generateSemversInRange_below_major "1.0-2.0" "1.0.0" "2.0.0"
                (Semver.mkSemVer 1 0 0) (Semver.mkSemVer 2 0 0)
                eq_refl eq_refl eq_refl eq_refl eq_refl fuel) as Hnot.
  destruct (generateSemversInRange fuel "1.0-2.0"); [discriminate Hnot| |];
    cbn [bind]; discriminate.
Qed.

(* ================================================================= *)
(** ** Further properties *)

(** *** Normalized versions are fixed points of [semverify] *)

Section Renormalize.

Import Semver SemverFacts.

Lemma length_string_of_uint (d : Decimal.uint) :
  String.length (NilEmpty.string_of_uint d) = Decimal.nb_digits d.
Proof. induction d; simpl; congruence. Qed.

Lemma of_uint_acc_lower (d : Decimal.uint) :
  forall acc,
    (Npos acc * 10 ^ N.of_nat (Decimal.nb_digits d) <= Npos (Pos.of_uint_acc d acc))%N.
Proof.
  induction d; intros acc; cbn [Pos.of_uint_acc Decimal.nb_digits];
    try (rewrite Nat2N.inj_succ, N.pow_succ_r'; etransitivity; [|apply IHd]; nia).
  rewrite N.pow_0_r. lia.
Qed.

(** A numeral of [n] digits without leading zero is at least
    [10 ^ (n - 1)]. *)
Lemma of_uint_lower (d : Decimal.uint) :
  Decimal.nzhead d = d -> d <> Decimal.Nil ->
  (10 ^ N.of_nat (Decimal.nb_digits d - 1) <= N.of_uint d)%N.
Proof.
  intros Hn Hd. destruct d; try contradiction;
    try (cbn [N.of_uint Pos.of_uint Decimal.nb_digits];
         rewrite Nat.sub_succ, Nat.sub_0_r;
         etransitivity; [|apply of_uint_acc_lower]; nia).
  exfalso. apply (DecimalFacts.nzhead_nonzero (Decimal.D0 d) d). exact Hn.
Qed.

Lemma to_uint_head (n : N) :
  n <> 0%N ->
  Decimal.nzhead (N.to_uint n) = N.to_uint n /\ N.to_uint n <> Decimal.Nil.
Proof.
  intros Hn. pose proof (DecimalN.Unsigned.to_of (N.to_uint n)) as H.
  rewrite DecimalN.Unsigned.of_to in H. unfold Decimal.unorm in H.
  destruct (Decimal.nzhead (N.to_uint n)) eqn:E;
    try (split; [congruence | intros H'; rewrite H' in E; discriminate]).
  exfalso. apply Hn. rewrite <- (DecimalN.Unsigned.of_to n), H. reflexivity.
Qed.

Lemma dec_length_bound (n : N) :
  (n < 10 ^ 16)%N -> String.length (dec n) <= 16.
Proof.
  intros Hn. unfold dec. rewrite length_string_of_uint.
  destruct (N.eq_dec n 0) as [->|Hz]; [cbn; lia|].
  destruct (to_uint_head n Hz) as [Hh Hnil].
  pose proof (of_uint_lower _ Hh Hnil) as Hlow.
  rewrite DecimalN.Unsigned.of_to in Hlow.
  destruct (Nat.le_gt_cases (Decimal.nb_digits (N.to_uint n)) 16) as [|Hbig];
    [assumption|].
  exfalso.
  assert (10 ^ 16 <= 10 ^ N.of_nat (Decimal.nb_digits (N.to_uint n) - 1))%N.
  { apply N.pow_le_mono_r; lia. }
  lia.
Qed.

(** The rendering of a safe integer is a component of the coercion
    pattern. *)
Lemma component_dec (n : N) : (n <= MAX_SAFE_INTEGER)%N -> component (dec n) = true.
Proof.
  intros Hn. unfold component, component_length_ok.
  rewrite dec_digits. cbn [andb].
  pose proof (dec_nonempty n) as Hne.
  assert (String.length (dec n) <= 16) as Hlen.
  { apply dec_length_bound. unfold MAX_SAFE_INTEGER in Hn.
    apply N.le_lt_trans with (1 := Hn). reflexivity. }
  apply andb_true_intro. split.
  - destruct (dec n); [contradiction | reflexivity].
  - apply Nat.leb_le. exact Hlen.
Qed.

Lemma coerce_format (v : SemVer) : safe v = true -> coerce (format v) = Some v.
Proof.
  intros Hs. pose proof Hs as Hs'. unfold safe in Hs'.
  rewrite !andb_true_iff, !N.leb_le in Hs'. destruct Hs' as [[Ha Hb] Hc].
  unfold coerce, format. cbn [append].
  rewrite (coerce_match_component (dec (major v)) _ (component_dec _ Ha)
             (no_digit_ahead_dot _)).
  unfold coerce_groups.
  rewrite (dot_component_append (dec (minor v)) _ (component_dec _ Hb)
             (no_digit_ahead_dot _)).
  rewrite <- (append_empty_r (dec (patch v))) at 1.
  rewrite (dot_component_append (dec (patch v)) EmptyString (component_dec _ Hc)
             no_digit_ahead_empty).
  rewrite !num_dec. destruct v; cbn [major minor patch] in *. rewrite Hs.
  reflexivity.
Qed.

Lemma semverify_format (v : SemVer) :
  safe v = true -> semverify (JStr (format v)) = Some (format v).
Proof. intros Hs. apply semverify_coerce, coerce_format, Hs. Qed.

Lemma semverify_idem (version : jsval) (x : string) :
  semverify version = Some x -> semverify (JStr x) = Some x.
Proof.
  intros H. destruct (semverify_parse _ _ H) as (v & -> & Hs & _).
  apply semverify_format, Hs.
Qed.

End Renormalize.

(** X1.  Normalizing is idempotent: a version that [semverify] returns
    is returned unchanged when it is normalized again, and it coerces
    to the version it renders. *)
Theorem semverify_idempotent (version : jsval) (x : string) :
  semverify version = Some x ->
  semverify (JStr x) = Some x
  /\ exists v, Semver.coerce x = Some v /\ Semver.format v = x.
Proof.
  intros H. split; [apply (semverify_idem version x H)|].
  destruct (semverify_parse _ _ H) as (v & -> & Hs & _).
  exists v. split; [apply coerce_format, Hs | reflexivity].
Qed.

Lemma semverify_idempotent_witness :
  semverify (JStr "10.2.0") = Some "10.2.0"
  /\ exists v, Semver.coerce "10.2.0" = Some v /\ Semver.format v = "10.2.0".
Proof.
  apply (semverify_idempotent (JStr "v010.2-beta") "10.2.0"). reflexivity.
Defined.

(** *** The decision list of [resolveUserAgent] *)

Ltac split_ifs :=
  repeat match goal with
         | |- context [if ?b then _ else _] => destruct b eqn:?
         end.

Section Resolve.

Lemma is_str_falsy (v : jsval) (s : string) :
  falsy v = true -> s <> EmptyString -> is_str v s = false.
Proof.
  destruct v as [| |t]; cbn; try reflexivity.
  intros Ht Hs. apply String.eqb_eq in Ht. subst t.
  destruct s; [contradiction | reflexivity].
Qed.

Lemma browser_rule_false (ua : ParsedUA) :
  browser_rule ua = false ->
  (is_str (browser_name ua) "Opera" && is_str (device_type ua) "mobile"
   || is_str (browser_name ua) "Opera Mobi") = false
  /\ is_str (browser_name ua) "Samsung Internet" = false
  /\ is_str (browser_name ua) "IE" = false
  /\ is_str (browser_name ua) "IEMobile" = false.
Proof.
  unfold browser_rule. intros H.
  repeat match goal with
         | H : (_ || _)%bool = false |- _ => apply orb_false_iff in H as [H ?]
         end.
  repeat split; try assumption. rewrite H. assumption.
Qed.

(** A resolved family or version is never the empty string. *)
Lemma resolveParsed_family_nonempty (ua : ParsedUA) :
  truthy_str (Agent.family (resolveParsed ua)) = Agent.family (resolveParsed ua).
Proof.
  unfold resolveParsed. split_ifs; cbn [Agent.family]; try reflexivity.
  destruct (browser_name ua) as [| |s]; try reflexivity.
  unfold truthy_str at 2.
  destruct (String.eqb_spec s EmptyString) as [->|Hne]; [reflexivity|].
  unfold truthy_str. apply String.eqb_neq in Hne. rewrite Hne. reflexivity.
Qed.

Lemma resolveParsed_version_nonempty (ua : ParsedUA) :
  truthy_str (Agent.version (resolveParsed ua)) = Agent.version (resolveParsed ua).
Proof.
  unfold resolveParsed. split_ifs; cbn [Agent.version]; apply truthy_str_semverify.
Qed.

End Resolve.

(** X2.  Whatever the UA parser reports, the resolved family is null,
    or one of the eight families assigned by rule, or the reported
    browser name, and never the empty string; the resolved version is
    the normalization of the reported browser, OS or engine version,
    so it is null or a normalized version. *)
Theorem resolveUserAgent_family_and_version (host : Host) (uaString : string) :
  let ua := UAParser host uaString in
  let agent := resolveUserAgent host uaString in
  (Agent.family agent = None
   \/ exists f, Agent.family agent = Some f /\ f <> EmptyString
                /\ (In f canonical_families \/ browser_name ua = JStr f))
  /\ (Agent.version agent = semverify (browser_version ua)
      \/ Agent.version agent = semverify (os_version ua)
      \/ Agent.version agent = semverify (engine_version ua))
  /\ (forall x, Agent.version agent = Some x -> semverify (JStr x) = Some x).
Proof.
  intros ua agent.
  assert (Hv : Agent.version agent = semverify (browser_version ua)
               \/ Agent.version agent = semverify (os_version ua)
               \/ Agent.version agent = semverify (engine_version ua)).
  { unfold agent, resolveUserAgent. fold ua. unfold resolveParsed.
    split_ifs; cbn [Agent.version]; auto. }
  split; [|split; [exact Hv|]].
  - unfold agent, resolveUserAgent. fold ua. unfold resolveParsed.
    split_ifs; cbn [Agent.family];
      try (right; eexists; split; [reflexivity|]; split; [discriminate|];
           left; cbn; tauto).
    destruct (browser_name ua) as [| |s]; try (left; reflexivity).
    unfold truthy_str.
    destruct (String.eqb_spec s EmptyString); [left; reflexivity|].
    right. exists s. auto.
  - intros x Hx. destruct Hv as [H|[H|H]]; rewrite H in Hx;
      apply (semverify_idem _ _ Hx).
Qed.

Lemma resolveUserAgent_family_and_version_witness :
  semverify (JStr "80.0.3987") = Some "80.0.3987".
Proof.
  destruct (resolveUserAgent_family_and_version host_chrome_80 "Mozilla/5.0")
    as (_ & _ & H).
  apply (H "80.0.3987"). reflexivity.
Defined.

(** X3.  The resolved family is null exactly when no browser name was
    reported (undefined, null or empty) and the UA is neither on iOS
    nor on a Gecko or Blink engine. *)
Theorem resolveUserAgent_null_family (host : Host) (uaString : string) :
  let ua := UAParser host uaString in
  Agent.family (resolveUserAgent host uaString) = None
  <-> (falsy (browser_name ua) = true
       /\ is_str (os_name ua) "iOS" = false
       /\ is_str (engine_name ua) "Gecko" = false
       /\ is_str (engine_name ua) "Blink" = false).
Proof.
  intros ua. unfold resolveUserAgent. fold ua. unfold resolveParsed. split.
  - split_ifs; cbn [Agent.family]; try discriminate.
    destruct (browser_name ua) as [| |s] eqn:Hb; cbn [falsy]; intros H.
    1-2: repeat split; try reflexivity;
      repeat match goal with
             | H : (_ && _)%bool = false |- _ => apply andb_false_iff in H
             | H : (_ || _)%bool = false |- _ => apply orb_false_iff in H as [? ?]
             end; try assumption;
      match goal with H : _ \/ _ |- _ => destruct H; [discriminate | assumption] end.
    unfold truthy_str in H.
    destruct (String.eqb_spec s EmptyString); [|discriminate].
    subst s. repeat split; try reflexivity;
      repeat match goal with
             | H : (_ && _)%bool = false |- _ => apply andb_false_iff in H
             | H : (_ || _)%bool = false |- _ => apply orb_false_iff in H as [? ?]
             end; try assumption;
      match goal with H : _ \/ _ |- _ => destruct H; [discriminate | assumption] end.
  - intros (Hb & Ho & Hg & Hk).
    rewrite !(is_str_falsy (browser_name ua) _ Hb) by discriminate.
    rewrite Ho, Hg, Hk, Hb. cbn [andb orb negb].
    destruct (browser_name ua) as [| |s]; try reflexivity.
    cbn [falsy] in Hb. unfold truthy_str. rewrite Hb. reflexivity.
Qed.

Lemma resolveUserAgent_null_family_witness :
  Agent.family (resolveUserAgent host_undetected "Mozilla/5.0") = None.
Proof.
  apply (proj2 (resolveUserAgent_null_family host_undetected "Mozilla/5.0")).
  repeat split.
Defined.

(** X4.  Off iOS, and when none of the browser-name rules (Opera on a
    mobile device, "Opera Mobi", "Samsung Internet", "IE", "IEMobile")
    applies, the engine decides whatever the browser calls itself: a
    Gecko engine resolves to "Firefox" and a Blink engine to "Chrome",
    both with the normalized engine version. *)
Theorem resolveUserAgent_engine_rules (host : Host) (uaString : string) :
  let ua := UAParser host uaString in
  is_str (os_name ua) "iOS" = false ->
  browser_rule ua = false ->
  (is_str (engine_name ua) "Gecko" = true ->
   resolveUserAgent host uaString
   = Agent.mk (Some "Firefox") (semverify (engine_version ua)))
  /\
  (is_str (engine_name ua) "Blink" = true ->
   resolveUserAgent host uaString
   = Agent.mk (Some "Chrome") (semverify (engine_version ua))).
Proof.
  intros ua Hos Hrule.
  destruct (browser_rule_false ua Hrule) as (Hopera & Hsamsung & Hie & Hiem).
  unfold resolveUserAgent. fold ua. unfold resolveParsed.
  rewrite Hos, Hopera, Hsamsung, Hie, Hiem, andb_false_r. split.
  - intros ->. reflexivity.
  - intros Hb. destruct (is_str (engine_name ua) "Gecko") eqn:Hg.
    + destruct (engine_name ua) as [| |s]; try discriminate.
      cbn [is_str] in Hg, Hb. apply String.eqb_eq in Hg, Hb. congruence.
    + rewrite Hb. reflexivity.
Qed.

Lemma resolveUserAgent_engine_rules_witness :
  resolveUserAgent (fixed_parser edge_on_blink) "ua"
  = Agent.mk (Some "Chrome") (Some "80.0.3987")
  /\ resolveUserAgent (fixed_parser firefox_on_gecko) "ua"
     = Agent.mk (Some "Firefox") (Some "72.0.0").
Proof.
  split.
  - apply (proj2 (resolveUserAgent_engine_rules (fixed_parser edge_on_blink) "ua"
                    eq_refl eq_refl)). reflexivity.
  - apply (proj1 (resolveUserAgent_engine_rules (fixed_parser firefox_on_gecko) "ua"
                    eq_refl eq_refl)). reflexivity.
Defined.

(** X5.  Off iOS, the browser-name rules come before the engine rules:
    "Opera Mobi", or "Opera" on a mobile device, resolves to
    "OperaMobile", "Samsung Internet" to "Samsung", "IE" to "Explorer"
    and "IEMobile" to "ExplorerMobile", each with the normalized
    browser version, whatever the engine is. *)
Theorem resolveUserAgent_browser_rules (host : Host) (uaString : string) :
  let ua := UAParser host uaString in
  is_str (os_name ua) "iOS" = false ->
  (browser_name ua = JStr "Opera Mobi"
   \/ (browser_name ua = JStr "Opera" /\ device_type ua = JStr "mobile") ->
   resolveUserAgent host uaString
   = Agent.mk (Some "OperaMobile") (semverify (browser_version ua)))
  /\ (browser_name ua = JStr "Samsung Internet" ->
      resolveUserAgent host uaString
      = Agent.mk (Some "Samsung") (semverify (browser_version ua)))
  /\ (browser_name ua = JStr "IE" ->
      resolveUserAgent host uaString
      = Agent.mk (Some "Explorer") (semverify (browser_version ua)))
  /\ (browser_name ua = JStr "IEMobile" ->
      resolveUserAgent host uaString
      = Agent.mk (Some "ExplorerMobile") (semverify (browser_version ua))).
Proof.
  intros ua Hos. unfold resolveUserAgent. fold ua. unfold resolveParsed.
  rewrite Hos, andb_false_r. repeat split.
  - intros [Hb|[Hb Hd]]; rewrite Hb; [|rewrite Hd]; reflexivity.
  - intros ->. reflexivity.
  - intros ->. reflexivity.
  - intros ->. reflexivity.
Qed.

Lemma resolveUserAgent_browser_rules_witness :
  resolveUserAgent (fixed_parser samsung_on_blink) "ua"
  = Agent.mk (Some "Samsung") (Some "11.1.0").
Proof.
  destruct (resolveUserAgent_browser_rules (fixed_parser samsung_on_blink) "ua"
              eq_refl) as (_ & H & _).
  apply H. reflexivity.
Defined.

(** X6.  Off iOS, with no browser-name rule applying and an engine
    that is neither Gecko nor Blink, a reported browser name decides:
    "Chrome", "Chromium", "Chrome WebView" and "Chrome Headless"
    resolve to "Chrome" with the browser version, "Android Browser" to
    "Android" with the OS version, and any other name to itself with
    the browser version. *)
Theorem resolveUserAgent_fallback_rules (host : Host) (uaString : string) :
  let ua := UAParser host uaString in
  is_str (os_name ua) "iOS" = false ->
  browser_rule ua = false ->
  is_str (engine_name ua) "Gecko" = false ->
  is_str (engine_name ua) "Blink" = false ->
  forall name, browser_name ua = JStr name -> name <> EmptyString ->
  resolveUserAgent host uaString
  = if existsb (String.eqb name)
         ["Chrome"; "Chromium"; "Chrome WebView"; "Chrome Headless"]
    then Agent.mk (Some "Chrome") (semverify (browser_version ua))
    else if (name =? "Android Browser")%string
    then Agent.mk (Some "Android") (semverify (os_version ua))
    else Agent.mk (Some name) (semverify (browser_version ua)).
Proof.
  intros ua Hos Hrule Hg Hk name Hname Hne.
  destruct (browser_rule_false ua Hrule) as (Hopera & Hsamsung & Hie & Hiem).
  unfold resolveUserAgent. fold ua. unfold resolveParsed.
  rewrite Hos, Hopera, Hsamsung, Hie, Hiem, Hg, Hk, andb_false_r.
  rewrite Hname. cbn [falsy is_str existsb].
  apply String.eqb_neq in Hne. rewrite Hne. cbn [negb andb].
  unfold truthy_str. rewrite Hne. reflexivity.
Qed.

Lemma resolveUserAgent_fallback_rules_witness :
  resolveUserAgent (fixed_parser safari_on_mac) "ua"
  = Agent.mk (Some "Safari") (Some "13.0.5").
Proof.
  apply (resolveUserAgent_fallback_rules (fixed_parser safari_on_mac) "ua"
           eq_refl eq_refl eq_refl eq_refl "Safari" eq_refl).
  discriminate.
Defined.

(** *** What the comparator accepts *)

Section Accepts.

Import Semver SemverFacts.

Lemma Ok_inj_iff (x y : bool) : @Ok bool x = Ok y <-> x = y.
Proof. split; [intros [= ->]; reflexivity | intros ->; reflexivity]. Qed.

Lemma compareBrowserSemvers_null (a q : string) (options : Options) :
  semverify (JStr a) = None \/ semverify (JStr q) = None ->
  compareBrowserSemvers a q options = Ok false.
Proof.
  unfold compareBrowserSemvers. rewrite !truthy_str_semverify.
  intros [-> | ->]; [reflexivity|].
  destruct (semverify (JStr a)); reflexivity.
Qed.

Lemma compareBrowserSemvers_coerced (a q : string) (va vq : SemVer) (options : Options) :
  coerce a = Some va -> coerce q = Some vq ->
  compareBrowserSemvers a q options
  = if truthy (allowHigherVersions options) then Ok (geb va vq)
    else Ok (satisfies (format va) (reference_range options (format vq))).
Proof.
  intros Ha Hq.
  rewrite (compareBrowserSemvers_normalized a q _ _ options
             (semverify_coerce a va Ha) (semverify_coerce q vq Hq)).
  rewrite (gte_format va vq (coerce_safe _ _ Ha) (coerce_safe _ _ Hq)).
  reflexivity.
Qed.

(** Every range the comparator builds has [>= q] or [= q] as its first
    comparator. *)
Lemma satisfies_reference_range_geb (va vq : SemVer) (options : Options) :
  safe va = true -> safe vq = true ->
  satisfies (format va) (reference_range options (format vq)) = true ->
  geb va vq = true.
Proof.
  intros Hva Hvq. unfold satisfies, parse_range.
  assert (Hd : exists cs,
             desugar (reference_range options (format vq)) = Some cs
             /\ (exists rest, cs = CGe vq :: rest \/ cs = CEq vq :: rest)).
  { unfold reference_range.
    destruct (truthy (ignoreMinor options)); [|destruct (truthy (ignorePatch options))].
    - cbn [append desugar]. change (Ascii.eqb "^" "~") with false.
      rewrite Ascii.eqb_refl, (parse_format vq Hvq). cbv iota.
      eexists; split; [reflexivity|]. unfold caret.
      destruct (major vq =? 0)%N; [destruct (minor vq =? 0)%N|]; eauto.
    - cbn [append desugar]. rewrite Ascii.eqb_refl, (parse_format vq Hvq).
      eexists; split; [reflexivity|]. unfold tilde. eauto.
    - unfold desugar. destruct (format_starts_with_digit vq) as (c & s & E & Hc).
      pose proof (parse_format vq Hvq) as Hp. rewrite E in Hp |- *.
      rewrite (digit_not c "~" eq_refl Hc), (digit_not c "^" eq_refl Hc), Hp.
      eauto. }
  destruct Hd as (cs & -> & rest & [-> | ->]);
    (destruct (forallb _ _); [|discriminate]);
    rewrite (parse_format va Hva); cbn [forallb test]; intros H;
    apply andb_prop in H as [H _]; [exact H|].
  unfold geb. destruct (compare_main va vq); try reflexivity; discriminate.
Qed.

End Accepts.

(** X7.  [compareBrowserSemvers] always returns a boolean, it never
    throws; when either of the two versions fails to normalize (for
    instance the version "all") the answer is [false]. *)
Theorem compareBrowserSemvers_never_throws (a q : string) (options : Options) :
  (exists b, compareBrowserSemvers a q options = Ok b)
  /\ (semverify (JStr a) = None \/ semverify (JStr q) = None ->
      compareBrowserSemvers a q options = Ok false).
Proof.
  split; [apply compareBrowserSemvers_returns | apply compareBrowserSemvers_null].
Qed.

Lemma compareBrowserSemvers_never_throws_witness :
  compareBrowserSemvers "80.0.3987" "all" both_tolerances = Ok false.
Proof.
  apply (proj2 (compareBrowserSemvers_never_throws "80.0.3987" "all" both_tolerances)).
  right. reflexivity.
Defined.

(** X8.  With [ignorePatch] set and [ignoreMinor] and
    [allowHigherVersions] not set (the defaults of [matchesUA]), a
    version matches a query version exactly when both have the same
    major and minor version and the patch version is at least that of
    the query: a lower patch does not match. *)
Theorem compareBrowserSemvers_ignorePatch
    (a q : string) (va vq : Semver.SemVer) (options : Options) :
  Semver.coerce a = Some va -> Semver.coerce q = Some vq ->
  truthy (allowHigherVersions options) = false ->
  truthy (ignoreMinor options) = false ->
  truthy (ignorePatch options) = true ->
  (Semver.minor vq < Semver.MAX_SAFE_INTEGER)%N ->
  compareBrowserSemvers a q options = Ok true
  <-> (Semver.major va = Semver.major vq /\ Semver.minor va = Semver.minor vq
       /\ Semver.patch vq <= Semver.patch va)%N.
Proof.
  intros Ha Hq Hh Hm Hp Hmax.
  rewrite (compareBrowserSemvers_coerced a q va vq options Ha Hq), Hh.
  unfold reference_range. rewrite Hm, Hp, Ok_inj_iff.
  apply (satisfies_tilde va vq (SemverFacts.coerce_safe _ _ Ha)
           (SemverFacts.coerce_safe _ _ Hq) Hmax).
Qed.

Lemma compareBrowserSemvers_ignorePatch_witness :
  compareBrowserSemvers "80.0.3987.87" "80" (flags None (Some true) None) = Ok true
  <-> (80 = 80 /\ 0 = 0 /\ 0 <= 3987)%N.
Proof.
  apply (compareBrowserSemvers_ignorePatch "80.0.3987.87" "80"
           (Semver.mkSemVer 80 0 3987) (Semver.mkSemVer 80 0 0)); reflexivity.
Defined.

(** X9.  With [ignoreMinor] set and [allowHigherVersions] not set, and
    a query version whose major version is at least 1 and below the
    largest safe integer, a version matches exactly when it has the
    same major version and is not below the query version;
    [ignorePatch] makes no difference. *)
Theorem compareBrowserSemvers_ignoreMinor
    (a q : string) (va vq : Semver.SemVer) (options : Options) :
  Semver.coerce a = Some va -> Semver.coerce q = Some vq ->
  truthy (allowHigherVersions options) = false ->
  truthy (ignoreMinor options) = true ->
  (0 < Semver.major vq < Semver.MAX_SAFE_INTEGER)%N ->
  compareBrowserSemvers a q options = Ok true
  <-> (Semver.major va = Semver.major vq /\ version_le vq va).
Proof.
  intros Ha Hq Hh Hm Hmax.
  rewrite (compareBrowserSemvers_coerced a q va vq options Ha Hq), Hh.
  unfold reference_range. rewrite Hm, Ok_inj_iff.
  apply (satisfies_caret va vq (SemverFacts.coerce_safe _ _ Ha)
           (SemverFacts.coerce_safe _ _ Hq) Hmax).
Qed.

Lemma compareBrowserSemvers_ignoreMinor_witness :
  compareBrowserSemvers "10.3" "10.2.1" (flags (Some true) None None) = Ok true
  <-> (10 = 10)%N /\ version_le (Semver.mkSemVer 10 2 1) (Semver.mkSemVer 10 3 0).
Proof.
  apply (compareBrowserSemvers_ignoreMinor "10.3" "10.2.1"
           (Semver.mkSemVer 10 3 0) (Semver.mkSemVer 10 2 1));
    try reflexivity.
  split; reflexivity.
Defined.

(** X10.  With none of the three flags set, a version matches a query
    version exactly when both normalize to the same version: "10"
    matches "10.0.0". *)
Theorem compareBrowserSemvers_exact
    (a q : string) (va vq : Semver.SemVer) (options : Options) :
  Semver.coerce a = Some va -> Semver.coerce q = Some vq ->
  truthy (allowHigherVersions options) = false ->
  truthy (ignoreMinor options) = false ->
  truthy (ignorePatch options) = false ->
  compareBrowserSemvers a q options = Ok true <-> va = vq.
Proof.
  intros Ha Hq Hh Hm Hp.
  rewrite (compareBrowserSemvers_coerced a q va vq options Ha Hq), Hh.
  unfold reference_range. rewrite Hm, Hp, Ok_inj_iff.
  apply (satisfies_exact va vq (SemverFacts.coerce_safe _ _ Ha)
           (SemverFacts.coerce_safe _ _ Hq)).
Qed.

Lemma compareBrowserSemvers_exact_witness :
  compareBrowserSemvers "10" "10.0.0" no_options = Ok true
  <-> Semver.mkSemVer 10 0 0 = Semver.mkSemVer 10 0 0.
Proof.
  apply (compareBrowserSemvers_exact "10" "10.0.0"
           (Semver.mkSemVer 10 0 0) (Semver.mkSemVer 10 0 0)); reflexivity.
Defined.

(** X11.  [allowHigherVersions] is the loosest setting: whatever the
    other flags are, a pair of versions that matches without it also
    matches with it. *)
Theorem compareBrowserSemvers_allowHigherVersions_loosest
    (a q : string) (options : Options) :
  compareBrowserSemvers a q options = Ok true ->
  compareBrowserSemvers a q (with_allowHigherVersions options) = Ok true.
Proof.
  destruct (semverify (JStr a)) as [a'|] eqn:Ha.
  2:{ rewrite (compareBrowserSemvers_null a q options) by auto. discriminate. }
  destruct (semverify (JStr q)) as [q'|] eqn:Hq.
  2:{ rewrite (compareBrowserSemvers_null a q options) by auto. discriminate. }
  rewrite !(compareBrowserSemvers_normalized a q a' q' _ Ha Hq).
  cbn [with_allowHigherVersions allowHigherVersions truthy].
  destruct (semverify_parse _ _ Ha) as (va & -> & Hsa & _).
  destruct (semverify_parse _ _ Hq) as (vq & -> & Hsq & _).
  rewrite (SemverFacts.gte_format va vq Hsa Hsq).
  destruct (truthy (allowHigherVersions options)); [auto|].
  intros [= H]. f_equal.
  apply (satisfies_reference_range_geb va vq options Hsa Hsq H).
Qed.

Lemma compareBrowserSemvers_allowHigherVersions_loosest_witness :
  compareBrowserSemvers "10.3.0" "10.2.0" (with_allowHigherVersions both_tolerances)
  = Ok true.
Proof.
  apply (compareBrowserSemvers_allowHigherVersions_loosest "10.3.0" "10.2.0"
           both_tolerances).
  reflexivity.
Defined.

(** *** Range expansion in closed form *)

Section RangeClosedForm.

Import Semver SemverFacts.

Lemma split_two (c : ascii) (a b : string) :
  without c a = true -> without c b = true ->
  split c (a ++ String c b) = [a; b].
Proof.
  intros Ha Hb. rewrite (split_append c a b Ha), (split_without c b Hb).
  reflexivity.
Qed.

Lemma generateSemversInRange_formats
    (fuel : nat) (versionRange : string) (l : list string) :
  generateSemversInRange fuel versionRange = Ok l ->
  forall x, In x l -> exists v, safe v = true /\ x = format v.
Proof.
  intros H x Hx.
  destruct (semverify (at_index (split "-" versionRange) 0)) as [s|] eqn:Hs.
  2:{ rewrite generateSemversInRange_unfold, Hs in H. injection H as <-.
      contradiction. }
  destruct (semverify (at_index (split "-" versionRange) 1)) as [e|] eqn:He.
  2:{ rewrite generateSemversInRange_unfold, Hs, He in H. injection H as <-.
      contradiction. }
  destruct (semverify_parse _ _ Hs) as (vs & _ & _ & Hps).
  destruct (semverify_parse _ _ He) as (ve & _ & _ & Hpe).
  destruct (proj1 (generateSemversInRange_Ok versionRange s e vs ve Hs He Hps Hpe
                     fuel l) H) as (k & _ & Hstop & ->).
  destruct Hstop as (Hle & _).
  apply in_map_iff in Hx as (j & <- & Hj). apply in_seq in Hj.
  exists (minor_step vs j). split; [|reflexivity]. apply Hle. lia.
Qed.

Lemma minor_step_inj (vs : SemVer) (i j : nat) :
  minor_step vs i = minor_step vs j -> i = j.
Proof.
  destruct vs as [a b c].
  destruct i, j; cbn [minor_step major minor]; intros H; try reflexivity;
    injection H; intros; lia.
Qed.

Lemma NoDup_map_injective {A B} (f : A -> B) (l : list A) :
  (forall x y, f x = f y -> x = y) -> NoDup l -> NoDup (map f l).
Proof.
  intros Hinj H. induction H as [|x l Hx Hl IH]; cbn [map]; constructor;
    [|exact IH].
  intros Hin. apply in_map_iff in Hin as (y & Hy & Hyl).
  apply Hinj in Hy. subst y. contradiction.
Qed.

End RangeClosedForm.

(** X12.  For a range token [start-end] with one hyphen whose
    boundaries coerce to [vs] and [ve]: if the start is above the end
    the expansion is empty; if both have the same major version, the
    start is not above the end and the minor version of the end is
    below the largest safe integer, the expansion is the start followed
    by the versions [major.(minor+i).0] up to the minor version of the
    end, [minor ve - minor vs + 1] versions in all.  The end itself is
    in the list only when its patch is 0 (or it is the start). *)
Theorem generateSemversInRange_within_major
    (start_ end_ : string) (vs ve : Semver.SemVer) :
  without "-" start_ = true -> without "-" end_ = true ->
  Semver.coerce start_ = Some vs -> Semver.coerce end_ = Some ve ->
  (version_lt ve vs ->
   forall fuel, 0 < fuel ->
     generateSemversInRange fuel (start_ ++ "-" ++ end_) = Ok [])
  /\
  (Semver.major vs = Semver.major ve -> version_le vs ve ->
   (Semver.minor ve < Semver.MAX_SAFE_INTEGER)%N ->
   forall fuel, S (N.to_nat (Semver.minor ve - Semver.minor vs)) < fuel ->
     generateSemversInRange fuel (start_ ++ "-" ++ end_)
     = Ok (Semver.format vs
           :: map (fun i => Semver.format
                              (Semver.mkSemVer (Semver.major vs)
                                 (Semver.minor vs + N.of_nat i) 0))
                (seq 1 (N.to_nat (Semver.minor ve - Semver.minor vs))))).
Proof.
  intros Hs He Hcs Hce. cbn [append].
  pose proof (split_two "-" start_ end_ Hs He) as Hsplit.
  assert (H0 : semverify (at_index (split "-" (start_ ++ String "-" end_)) 0)
               = Some (Semver.format vs)).
  { rewrite Hsplit. apply semverify_coerce, Hcs. }
  assert (H1 : semverify (at_index (split "-" (start_ ++ String "-" end_)) 1)
               = Some (Semver.format ve)).
  { rewrite Hsplit. apply semverify_coerce, Hce. }
  pose proof (SemverFacts.coerce_safe _ _ Hcs) as Hss.
  pose proof (SemverFacts.coerce_safe _ _ Hce) as Hse.
  assert (Hcomp : forall a b c, Semver.safe (Semver.mkSemVer a b c) = true <->
            (a <= Semver.MAX_SAFE_INTEGER /\ b <= Semver.MAX_SAFE_INTEGER
             /\ c <= Semver.MAX_SAFE_INTEGER)%N).
  { intros. unfold Semver.safe. cbn [Semver.major Semver.minor Semver.patch].
    rewrite !andb_true_iff, !N.leb_le. tauto. }
  split.
  - intros Hlt fuel Hfuel.
    apply (generateSemversInRange_steps _ _ _ vs ve 0 H0 H1
             (SemverFacts.parse_format vs Hss) (SemverFacts.parse_format ve Hse));
      auto.
    intros j Hj. lia.
  - intros Hmaj Hle Hmax fuel Hfuel.
    rewrite (generateSemversInRange_steps _ _ _ vs ve
               (S (N.to_nat (Semver.minor ve - Semver.minor vs))) H0 H1
               (SemverFacts.parse_format vs Hss) (SemverFacts.parse_format ve Hse)).
    + cbn [seq map minor_step]. f_equal. f_equal.
      apply map_ext_in. intros i Hi. apply in_seq in Hi.
      destruct i; [lia|]. reflexivity.
    + destruct vs as [a b c], ve as [x y z].
      cbn [Semver.major Semver.minor Semver.patch] in *.
      subst x. apply Hcomp in Hss, Hse. unfold version_le in Hle.
      cbn [Semver.major Semver.minor Semver.patch] in Hle.
      intros [|j] Hj; cbn [minor_step Semver.major Semver.minor];
        unfold version_le; rewrite Hcomp;
        cbn [Semver.major Semver.minor Semver.patch]; lia.
    + destruct vs as [a b c], ve as [x y z].
      cbn [Semver.major Semver.minor Semver.patch] in *.
      subst x. apply Hcomp in Hss, Hse. unfold version_le in Hle.
      cbn [Semver.major Semver.minor Semver.patch] in Hle.
      cbn [minor_step Semver.major Semver.minor]. rewrite Hcomp.
      unfold Semver.MAX_SAFE_INTEGER in *. lia.
    + destruct vs as [a b c], ve as [x y z].
      cbn [Semver.major Semver.minor Semver.patch] in *.
      subst x. unfold version_le in Hle.
      cbn [Semver.major Semver.minor Semver.patch] in Hle.
      unfold version_lt. cbn [minor_step Semver.major Semver.minor Semver.patch].
      lia.
    + exact Hfuel.
Qed.

Lemma generateSemversInRange_within_major_witness :
  generateSemversInRange 4 "9.0-9.2.5" = Ok ["9.0.0"; "9.1.0"; "9.2.0"]
  /\ generateSemversInRange 1 "10.2-10.0" = Ok [].
Proof.
  split.
  - apply (proj2 (generateSemversInRange_within_major "9.0" "9.2.5"
                    (Semver.mkSemVer 9 0 0) (Semver.mkSemVer 9 2 5)
                    eq_refl eq_refl eq_refl eq_refl) eq_refl).
    + unfold version_le. cbn. lia.
    + reflexivity.
    + cbn. lia.
  - apply (proj1 (generateSemversInRange_within_major "10.2" "10.0"
                    (Semver.mkSemVer 10 2 0) (Semver.mkSemVer 10 0 0)
                    eq_refl eq_refl eq_refl eq_refl)).
    + unfold version_lt. cbn. lia.
    + lia.
Defined.

(** X13.  Tokens that are no range expand to the empty list without
    entering the loop: a token without hyphen (the end is undefined), a
    token whose end is empty, a token that starts with a hyphen (the
    start is empty).  Only the first two pieces of a token count:
    whatever follows a second hyphen is ignored. *)
Theorem generateSemversInRange_malformed (fuel : nat) :
  (forall token, without "-" token = true ->
     generateSemversInRange fuel token = Ok [])
  /\ (forall start_, without "-" start_ = true ->
        generateSemversInRange fuel (start_ ++ "-") = Ok [])
  /\ (forall rest, generateSemversInRange fuel ("-" ++ rest) = Ok [])
  /\ (forall a b more, without "-" a = true -> without "-" b = true ->
        generateSemversInRange fuel (a ++ "-" ++ b ++ "-" ++ more)
        = generateSemversInRange fuel (a ++ "-" ++ b)).
Proof.
  split; [|split; [|split]].
  - intros token H. rewrite generateSemversInRange_unfold, (split_without _ _ H).
    cbn [at_index nth_error]. destruct (semverify (JStr token)); reflexivity.
  - intros start_ H. rewrite generateSemversInRange_unfold.
    rewrite (split_two "-" start_ EmptyString H eq_refl).
    cbn [at_index nth_error]. destruct (semverify (JStr start_)); reflexivity.
  - intros rest. rewrite generateSemversInRange_unfold. cbn [append split].
    change (Ascii.eqb "-" "-") with true. cbv iota. reflexivity.
  - intros a b more Ha Hb. rewrite !generateSemversInRange_unfold. cbn [append].
    rewrite (split_two "-" a b Ha Hb), (split_append "-" a _ Ha),
      (split_append "-" b _ Hb).
    reflexivity.
Qed.

Lemma generateSemversInRange_malformed_witness :
  generateSemversInRange 0 "11" = Ok []
  /\ generateSemversInRange 0 "11-" = Ok []
  /\ generateSemversInRange 5 "10.0-10.1-12" = generateSemversInRange 5 "10.0-10.1".
Proof.
  destruct (generateSemversInRange_malformed 0) as (H1 & H2 & _ & _).
  destruct (generateSemversInRange_malformed 5) as (_ & _ & _ & H4).
  split; [apply (H1 "11"); reflexivity|].
  split; [apply (H2 "11"); reflexivity|].
  apply (H4 "10.0" "10.1" "12"); reflexivity.
Defined.

(** X14.  Every version of an expansion is a normalized version (a
    fixed point of [semverify]), and no version occurs twice. *)
Theorem generateSemversInRange_normalized
    (fuel : nat) (versionRange : string) (l : list string) :
  generateSemversInRange fuel versionRange = Ok l ->
  NoDup l /\ forall x, In x l -> semverify (JStr x) = Some x.
Proof.
  intros H. split.
  - destruct (semverify (at_index (split "-" versionRange) 0)) as [s|] eqn:Hs.
    2:{ rewrite generateSemversInRange_unfold, Hs in H. injection H as <-.
        constructor. }
    destruct (semverify (at_index (split "-" versionRange) 1)) as [e|] eqn:He.
    2:{ rewrite generateSemversInRange_unfold, Hs, He in H. injection H as <-.
        constructor. }
    destruct (semverify_parse _ _ Hs) as (vs & _ & _ & Hps).
    destruct (semverify_parse _ _ He) as (ve & _ & _ & Hpe).
    destruct (proj1 (generateSemversInRange_Ok versionRange s e vs ve Hs He Hps Hpe
                       fuel l) H) as (k & _ & _ & ->).
    apply NoDup_map_injective; [|apply seq_NoDup].
    intros i j Hij. unfold version_at in Hij. apply SemverFacts.format_inj in Hij.
    apply (minor_step_inj vs i j Hij).
  - intros x Hx.
    destruct (generateSemversInRange_formats fuel versionRange l H x Hx)
      as (v & Hv & ->).
    apply semverify_format, Hv.
Qed.

Lemma generateSemversInRange_normalized_witness :
  NoDup ["10.0.0"; "10.1.0"; "10.2.0"]
  /\ forall x, In x ["10.0.0"; "10.1.0"; "10.2.0"] -> semverify (JStr x) = Some x.
Proof.
  apply (generateSemversInRange_normalized 4 "10.0-10.2"). reflexivity.
Defined.

(** *** Aliasing the head of a query *)

(** X15.  A query that starts with an alias key followed by a space is
    rewritten at its head: the key becomes its canonical name and the
    rest of the query is kept, whatever it contains. *)
Theorem normalizeQuery_alias_with_version (k canonical rest : string) :
  lookup k browserNameMap = Some canonical ->
  normalizeQuery (k ++ " " ++ rest) = (canonical ++ " " ++ rest)%string.
Proof.
  unfold browserNameMap. cbn [lookup].
  repeat match goal with
         | |- context [(?a =? k)%string] =>
             destruct (String.eqb_spec a k) as [<-|_];
             [intros [= <-]; reflexivity|]
         end.
  discriminate.
Qed.

Lemma normalizeQuery_alias_with_version_witness :
  normalizeQuery ("ie" ++ " " ++ "11, ie_mob 11") = "Explorer 11, ie_mob 11".
Proof.
  apply (normalizeQuery_alias_with_version "ie" "Explorer" "11, ie_mob 11").
  reflexivity.
Defined.

(** *** Parsed query results *)

Section ParsedEntries.

Import Semver SemverFacts.

Lemma entry_result_plain (fuel : nat) (entry : string) :
  plain_entry entry = true ->
  entry_result fuel entry
  = Ok (if (entry_version entry =? "TP")%string then []
        else [Entry.mk (normalized_name (entry_name entry)) (entry_version entry)]).
Proof.
  unfold entry_result, plain_entry, entry_version, entry_name.
  destruct (after " " entry) as [tail|]; [|discriminate].
  intros He. apply negb_true_iff in He. rewrite He.
  destruct (before " " tail =? "TP")%string; reflexivity.
Qed.

Lemma format_not_TP (v : SemVer) : format v <> "TP".
Proof.
  destruct (format_starts_with_digit v) as (c & s & E & Hc). rewrite E.
  intros [= -> _]. discriminate Hc.
Qed.

Lemma generateSemversInRange_expandable (token : string) :
  expandable token ->
  exists k, forall fuel, k < fuel ->
    exists l, generateSemversInRange fuel token = Ok l.
Proof.
  intros Hexp.
  destruct (semverify (at_index (split "-" token) 0)) as [s|] eqn:Hs.
  2:{ exists 0. intros fuel _. exists [].
      rewrite generateSemversInRange_unfold, Hs. reflexivity. }
  destruct (semverify (at_index (split "-" token) 1)) as [e|] eqn:He.
  2:{ exists 0. intros fuel _. exists [].
      rewrite generateSemversInRange_unfold, Hs, He. reflexivity. }
  destruct (semverify_parse _ _ Hs) as (vs & _ & _ & Hps).
  destruct (semverify_parse _ _ He) as (ve & _ & _ & Hpe).
  destruct (Hexp s e vs ve Hs He Hps Hpe) as [Hmaj Hmin].
  destruct (generateSemversInRange_same_major token s e vs ve Hs He Hps Hpe Hmaj Hmin)
    as (k & Hk).
  exists k. intros fuel Hfuel. eexists. apply Hk, Hfuel.
Qed.

Lemma entry_result_well_formed (entry : string) :
  well_formed_entry entry ->
  exists k, forall fuel, k < fuel -> exists r, entry_result fuel entry = Ok r.
Proof.
  intros (rest & Hafter & Hexp). unfold entry_result. rewrite Hafter.
  destruct (before " " rest =? "TP")%string; [exists 0; eauto|].
  destruct (0 <? indexOf "-" (before " " rest))%Z; [|exists 0; eauto].
  destruct (generateSemversInRange_expandable _ Hexp) as (k & Hk).
  exists k. intros fuel Hfuel. destruct (Hk fuel Hfuel) as (l & ->).
  cbn [bind]. eauto.
Qed.

End ParsedEntries.

(** X16.  Parsing distributes over concatenation of the query-result
    lists: the entries of the first list come first, and an exception
    or a loop that does not end in the first list prevails over the
    second. *)
Theorem parseBrowsersList_concat (fuel : nat) (l1 l2 : list string) :
  parseBrowsersList fuel (l1 ++ l2)
  = (r1 <- parseBrowsersList fuel l1 ;;
     r2 <- parseBrowsersList fuel l2 ;;
     Ok (r1 ++ r2)).
Proof. apply parseBrowsersList_app. Qed.

(** X17.  On a list whose entries all have a space and a version that
    is no range, [parseBrowsersList] returns, without any loop, one
    entry per query result that is not a "TP" result, in order: the
    version as written, and as family what [name in browserNameMap]
    selects for the name.  That is the alias for a key of the map, the
    name itself for a name that is no key and not inherited from
    [Object.prototype], and the inherited value, which is no string,
    for an inherited name like [toString].  A non-numeric version other
    than "TP", like "all", is kept. *)
Theorem parseBrowsersList_plain (fuel : nat) (browsersList : list string) :
  forallb plain_entry browsersList = true ->
  parseBrowsersList fuel browsersList
  = Ok (map (fun entry =>
               Entry.mk (normalized_name (entry_name entry)) (entry_version entry))
          (filter (fun entry => negb (entry_version entry =? "TP")%string)
             browsersList))
  /\ (forall name canonical,
        lookup name browserNameMap = Some canonical ->
        normalized_name name = FStr canonical)
  /\ (forall name,
        lookup name browserNameMap = None -> inherited name = false ->
        normalized_name name = FStr name)
  /\ (forall name,
        inherited name = true -> normalized_name name = FInherited name).
Proof.
  intros Hplain.
  split; [|split; [exact normalized_name_key|
                   split; [exact normalized_name_other
                          |exact normalized_name_inherited]]].
  revert Hplain.
  induction browsersList as [|entry rest IH]; [reflexivity|].
  cbn [forallb]. intros H. apply andb_prop in H as [He Hrest].
  rewrite parseBrowsersList_cons, (IH Hrest), (entry_result_plain fuel entry He).
  cbn [filter bind].
  destruct (entry_version entry =? "TP")%string; reflexivity.
Qed.

Lemma parseBrowsersList_plain_witness :
  parseBrowsersList 0 ["ie 11"; "safari TP"; "op_mini all"; "toString 80"]
  = Ok [Entry.mk (FStr "Explorer") "11"; Entry.mk (FStr "OperaMini") "all";
        Entry.mk (FInherited "toString") "80"].
Proof.
  apply (parseBrowsersList_plain 0
           ["ie 11"; "safari TP"; "op_mini all"; "toString 80"]).
  reflexivity.
Defined.

(** X18.  Every parsed entry comes from a query result: its family is
    what [name in browserNameMap] selects for that result's name (the
    alias of a key, the name itself, or the value inherited from
    [Object.prototype], which is no string), and its version is never
    "TP"; it is the version as written in the result or, for an entry
    of an expanded range, a normalized version.  The family is a string
    unless the name is one of the inherited property names. *)
Theorem parseBrowsersList_origin (fuel : nat) (browsersList : list string)
    (entries : list Entry.t) :
  parseBrowsersList fuel browsersList = Ok entries ->
  forall q, In q entries ->
    Entry.version q <> "TP"
    /\ exists entry, In entry browsersList
                     /\ Entry.family q = normalized_name (entry_name entry)
                     /\ (inherited (entry_name entry) = false ->
                         string_family q = true)
                     /\ (Entry.version q = entry_version entry
                         \/ semverify (JStr (Entry.version q)) = Some (Entry.version q)).
Proof.
  revert entries. induction browsersList as [|entry rest IH]; intros entries.
  - intros [= <-] q [].
  - rewrite parseBrowsersList_cons.
    destruct (entry_result fuel entry) as [r| |] eqn:Er; try discriminate.
    destruct (parseBrowsersList fuel rest) as [rs| |]; try discriminate.
    cbn [bind]. intros [= <-] q Hq. apply in_app_or in Hq as [Hq|Hq].
    + assert (Entry.version q <> "TP"
              /\ Entry.family q = normalized_name (entry_name entry)
              /\ (Entry.version q = entry_version entry
                  \/ semverify (JStr (Entry.version q)) = Some (Entry.version q)))
        as H.
      { unfold entry_result, entry_name, entry_version in *.
        destruct (after " " entry) as [tail|]; [|discriminate].
        destruct (String.eqb_spec (before " " tail) "TP") as [|Hne].
        - injection Er as <-. contradiction.
        - destruct (0 <? indexOf "-" (before " " tail))%Z.
          + destruct (generateSemversInRange fuel (before " " tail)) as [vs| |] eqn:Eg;
              try discriminate.
            injection Er as <-. apply in_map_iff in Hq as (x & <- & Hx).
            cbn [Entry.version Entry.family].
            destruct (generateSemversInRange_formats fuel _ vs Eg x Hx)
              as (v & Hv & ->).
            split; [apply format_not_TP|]. split; [reflexivity|].
            right. apply semverify_format, Hv.
          + injection Er as <-. destruct Hq as [<-|[]].
            cbn [Entry.version Entry.family]. auto. }
      destruct H as (H1 & H2 & H3). split; [exact H1|].
      exists entry. split; [left; reflexivity|]. split; [exact H2|].
      split; [|exact H3].
      intros Hi. unfold string_family. rewrite H2.
      apply normalized_name_string, Hi.
    + destruct (IH rs eq_refl q Hq) as (H1 & e & He & H2).
      split; [exact H1|]. exists e. split; [right; exact He | exact H2].
Qed.

Lemma parseBrowsersList_origin_witness :
  Entry.version (Entry.mk (FStr "chrome") "10.1.0") <> "TP"
  /\ exists entry, In entry sample_query_results
                   /\ Entry.family (Entry.mk (FStr "chrome") "10.1.0")
                      = normalized_name (entry_name entry)
                   /\ (inherited (entry_name entry) = false ->
                       string_family (Entry.mk (FStr "chrome") "10.1.0") = true)
                   /\ (Entry.version (Entry.mk (FStr "chrome") "10.1.0") = entry_version entry
                       \/ semverify (JStr (Entry.version (Entry.mk (FStr "chrome") "10.1.0")))
                          = Some (Entry.version (Entry.mk (FStr "chrome") "10.1.0"))).
Proof.
  apply (parseBrowsersList_origin 4 sample_query_results
           [Entry.mk (FStr "Explorer") "11"; Entry.mk (FStr "chrome") "10.0.0";
            Entry.mk (FStr "chrome") "10.1.0"; Entry.mk (FStr "chrome") "10.2.0"]).
  - reflexivity.
  - cbn. tauto.
Defined.

(** X19.  [parseBrowsersList] returns a list, given a large enough
    budget for its loops, whenever every entry has a space and every
    version whose two range boundaries normalize has its end in no
    later major version than its start (and an end minor version below
    the largest safe integer). *)
Theorem parseBrowsersList_returns (browsersList : list string) :
  Forall well_formed_entry browsersList ->
  exists budget, forall fuel, budget <= fuel ->
    exists entries, parseBrowsersList fuel browsersList = Ok entries.
Proof.
  induction 1 as [|entry rest Hentry _ IH].
  - exists 0. intros fuel _. exists []. reflexivity.
  - destruct IH as (budget & Hrest).
    destruct (entry_result_well_formed entry Hentry) as (k & Hk).
    exists (Nat.max (S k) budget). intros fuel Hfuel.
    destruct (Hk fuel ltac:(lia)) as (r & Hr).
    destruct (Hrest fuel ltac:(lia)) as (rs & Hrs).
    exists (r ++ rs). rewrite parseBrowsersList_cons, Hr, Hrs. reflexivity.
Qed.

Lemma parseBrowsersList_returns_witness :
  exists budget, forall fuel, budget <= fuel ->
    exists entries, parseBrowsersList fuel ["ie 11"; "ios_saf 10.0-10.2"] = Ok entries.
Proof.
  apply (parseBrowsersList_returns ["ie 11"; "ios_saf 10.0-10.2"]).
  repeat constructor.
  - exists "11". split; [reflexivity|]. intros s e vs ve _ He. discriminate He.
  - exists "10.0-10.2". split; [reflexivity|].
    intros s e vs ve Hs He Hps Hpe.
    injection Hs as <-. injection He as <-.
    injection Hps as <-. injection Hpe as <-.
    split; [cbn; lia | reflexivity].
Defined.

(** *** The scan of [matchesUA] *)

Section Scan.

Lemma some_find {A} (t g : A -> bool) (e : js_error) (f : A -> outcome bool)
    (l : list A) :
  (forall x, f x = if t x then Throw e else Ok (g x)) ->
  some f l = match find (fun x => t x || g x) l with
             | Some x => if t x then Throw e else Ok true
             | None => Ok false
             end.
Proof.
  intros H. induction l as [|x l IH]; cbn [some find]; [reflexivity|].
  rewrite H. destruct (t x) eqn:Et; cbn [bind orb]; [rewrite Et; reflexivity|].
  destruct (g x); [rewrite Et; reflexivity | exact IH].
Qed.

Lemma find_split {A} (p : A -> bool) (l : list A) (x : A) :
  find p l = Some x <->
  exists front back,
    l = front ++ x :: back /\ p x = true /\ forall y, In y front -> p y = false.
Proof.
  induction l as [|a l IH]; cbn [find].
  - split; [discriminate|]. intros ([|? ?] & back & E & _); discriminate.
  - destruct (p a) eqn:Ea.
    + split.
      * intros [= <-]. exists [], l. split; [reflexivity|]. split; [exact Ea|].
        intros y [].
      * intros ([|b front] & back & E & Hx & Hfront).
        -- injection E as <- _. reflexivity.
        -- injection E as <- _. rewrite (Hfront a (or_introl eq_refl)) in Ea.
           discriminate.
    + rewrite IH. split.
      * intros (front & back & -> & Hx & Hfront). exists (a :: front), back.
        split; [reflexivity|]. split; [exact Hx|].
        intros y [<-|Hy]; [exact Ea | apply Hfront, Hy].
      * intros ([|b front] & back & E & Hx & Hfront).
        -- injection E as <- _. rewrite Hx in Ea. discriminate.
        -- injection E as _ ->. exists front, back. split; [reflexivity|].
           split; [exact Hx|]. intros y Hy. apply Hfront. right. exact Hy.
Qed.

Lemma compareBrowserSemvers_empty_query (a : string) (options : Options) :
  compareBrowserSemvers a EmptyString options = Ok false.
Proof.
  unfold compareBrowserSemvers. rewrite !truthy_str_semverify.
  destruct (semverify (JStr a)); reflexivity.
Qed.

Lemma accepts_spec (host : Host) (agent : Agent.t) (opts : Options)
    (browser : Entry.t) :
  accepts host agent opts browser = true <-> entry_matches host agent opts browser.
Proof.
  unfold accepts, entry_matches, family_is. split.
  - destruct (Agent.family agent) as [f|]; [|discriminate].
    destruct (Agent.version agent) as [v|]; [|discriminate].
    rewrite !andb_true_iff. intros [[_ Hf] Hc].
    destruct (Entry.family browser) as [name|]; [|discriminate].
    exists name, f, v. repeat split; [apply String.eqb_eq, Hf|].
    destruct (compareBrowserSemvers v _ _) as [b| |]; try discriminate. congruence.
  - intros (name & f & v & -> & -> & -> & Hf & Hc).
    rewrite Hc, Hf, String.eqb_refl.
    destruct (String.eqb_spec (Entry.version browser) EmptyString) as [E|];
      [|reflexivity].
    rewrite E, compareBrowserSemvers_empty_query in Hc. discriminate.
Qed.

Lemma scan_fails_at_string (agent : Agent.t) (browser : Entry.t) :
  string_family browser = true -> scan_fails_at agent browser = false.
Proof.
  intros H. unfold scan_fails_at. rewrite H.
  destruct (Agent.family agent); [|reflexivity].
  destruct (Agent.version agent); [|reflexivity]. apply andb_false_r.
Qed.

(** For a UA string that is not empty, [matchesUA] is the resolver and
    the parser followed by a scan that stops at the first entry that
    is accepted or at which it fails. *)
Lemma matchesUA_scan (fuel : nat) (host : Host) (uaString : string) (opts : Options) :
  uaString <> EmptyString ->
  matchesUA fuel host uaString opts
  = (entries <- policy_entries fuel host opts ;;
     match find (fun browser =>
                   scan_fails_at (resolveUserAgent host uaString) browser
                   || accepts host (resolveUserAgent host uaString) opts browser)
                entries with
     | Some browser =>
         if scan_fails_at (resolveUserAgent host uaString) browser
         then Throw not_a_function else Ok true
     | None => Ok false
     end).
Proof.
  intros Hua. unfold matchesUA, policy_entries.
  apply String.eqb_neq in Hua. rewrite Hua.
  rewrite bind_assoc. apply bind_ext. intros raw. apply bind_ext. intros entries.
  apply some_find. intros browser.
  unfold accepts, scan_fails_at, string_family, resolveUserAgent.
  rewrite resolveParsed_family_nonempty, resolveParsed_version_nonempty.
  destruct (Agent.family _) as [f|]; [|reflexivity].
  destruct (Agent.version _) as [v|]; [|reflexivity].
  destruct (Entry.version browser =? EmptyString)%string; [reflexivity|].
  destruct (Entry.family browser) as [name|]; [|reflexivity].
  cbn [negb andb].
  destruct (toLowerCase host name =? toLocaleLowerCase host f)%string;
    [|reflexivity].
  cbn [andb].
  destruct (compareBrowserSemvers_returns v (Entry.version browser) (with_defaults opts))
    as (b & ->). reflexivity.
Qed.

(** When every family is a string the scan is a disjunction. *)
Lemma matchesUA_scan_strings (fuel : nat) (host : Host) (uaString : string)
    (opts : Options) (entries : list Entry.t) :
  uaString <> EmptyString ->
  policy_entries fuel host opts = Ok entries ->
  forallb string_family entries = true ->
  matchesUA fuel host uaString opts
  = Ok (existsb (accepts host (resolveUserAgent host uaString) opts) entries).
Proof.
  intros Hua Hentries Hstr.
  rewrite (matchesUA_scan fuel host uaString opts Hua), Hentries. cbn [bind].
  clear Hentries. induction entries as [|x l IH]; cbn [find existsb];
    [reflexivity|].
  cbn [forallb] in Hstr. apply andb_prop in Hstr as [Hx Hl].
  rewrite (scan_fails_at_string _ x Hx). cbn [orb].
  destruct (accepts host _ opts x); cbn [orb].
  - rewrite (scan_fails_at_string _ x Hx). reflexivity.
  - apply IH, Hl.
Qed.

End Scan.

(** X20.  Once the query results are obtained and parsed, and the
    family of every parsed entry is a string, [matchesUA] on a UA
    string that is not empty returns a boolean.  It is [true] exactly
    when some parsed entry has a family that [toLowerCase] maps to
    what [toLocaleLowerCase] makes of the resolved agent's family, and
    a version that the comparator accepts for the agent's version under
    the options merged with the defaults. *)
Theorem matchesUA_any_entry
    (fuel : nat) (host : Host) (uaString : string) (opts : Options)
    (entries : list Entry.t) :
  uaString <> EmptyString ->
  policy_entries fuel host opts = Ok entries ->
  forallb string_family entries = true ->
  exists b,
    matchesUA fuel host uaString opts = Ok b
    /\ (b = true <->
        exists browser,
          In browser entries
          /\ entry_matches host (resolveUserAgent host uaString) opts browser).
Proof.
  intros Hua Hentries Hstr.
  rewrite (matchesUA_scan_strings fuel host uaString opts entries Hua Hentries Hstr).
  eexists. split; [reflexivity|].
  rewrite existsb_exists. split.
  - intros (x & Hx & Hacc). exists x. split; [exact Hx | apply accepts_spec, Hacc].
  - intros (x & Hx & Hm). exists x. split; [exact Hx | apply accepts_spec, Hm].
Qed.

Lemma matchesUA_any_entry_witness :
  exists b,
    matchesUA 1 host_chrome_80 "Mozilla/5.0" no_options = Ok b
    /\ (b = true <->
        exists browser,
          In browser [Entry.mk (FStr "firefox") "72"; Entry.mk (FStr "chrome") "80"]
          /\ entry_matches host_chrome_80
               (resolveUserAgent host_chrome_80 "Mozilla/5.0") no_options browser).
Proof.
  apply (matchesUA_any_entry 1 host_chrome_80 "Mozilla/5.0" no_options
           [Entry.mk (FStr "firefox") "72"; Entry.mk (FStr "chrome") "80"]).
  - discriminate.
  - reflexivity.
  - reflexivity.
Defined.

(** X21.  For a UA string that is not empty, an exception of the
    support-policy resolver or of the parsing of its results reaches
    the caller unchanged: nothing is caught; and [matchesUA] exhausts
    the step budget exactly when the parsing does.  After a successful
    parse [matchesUA] throws in one case only, with the [TypeError] of
    calling [toLowerCase] on a family that is no string: when the scan
    comes to such an entry, with a version that is not empty, the
    agent having a family and a version, and no entry before it is
    accepted or makes the scan fail.  Such an entry stems from a query
    result whose name is a property name inherited from
    [Object.prototype], like [toString]. *)
Theorem matchesUA_failures
    (fuel : nat) (host : Host) (uaString : string) (opts : Options) :
  uaString <> EmptyString ->
  (forall e, policy_entries fuel host opts = Throw e ->
             matchesUA fuel host uaString opts = Throw e)
  /\ (matchesUA fuel host uaString opts = OutOfFuel
      <-> policy_entries fuel host opts = OutOfFuel)
  /\ (forall e,
        browserslist host (option_map (map normalizeQuery) (browsers opts)) (env opts)
          (match truthy_str (path opts) with Some p => p | None => cwd host end)
        = Throw e ->
        matchesUA fuel host uaString opts = Throw e)
  /\ (forall entries e,
        policy_entries fuel host opts = Ok entries ->
        (matchesUA fuel host uaString opts = Throw e
         <-> e = not_a_function
             /\ exists front browser back,
                  entries = front ++ browser :: back
                  /\ scan_fails_at (resolveUserAgent host uaString) browser = true
                  /\ forall x, In x front ->
                       scan_fails_at (resolveUserAgent host uaString) x = false
                       /\ accepts host (resolveUserAgent host uaString) opts x
                          = false)).
Proof.
  intros Hua. rewrite (matchesUA_scan fuel host uaString opts Hua).
  split; [|split; [|split]].
  - intros e ->. reflexivity.
  - destruct (policy_entries fuel host opts) as [entries| |]; cbn [bind];
      split; intros H; try discriminate; try reflexivity.
    destruct (find _ entries) as [x|]; [|discriminate].
    destruct (scan_fails_at _ x); discriminate.
  - intros e He. unfold policy_entries. rewrite He. reflexivity.
  - intros entries e ->. cbn [bind]. split.
    + destruct (find _ entries) as [x|] eqn:Ef; [|discriminate].
      destruct (scan_fails_at _ x) eqn:Ex; [|discriminate].
      intros [= <-]. split; [reflexivity|].
      apply find_split in Ef as (front & back & -> & _ & Hfront).
      exists front, x, back. split; [reflexivity|]. split; [exact Ex|].
      intros y Hy. apply orb_false_elim, Hfront, Hy.
    + intros (-> & front & x & back & -> & Hx & Hfront).
      assert (Ef : find (fun browser =>
                           scan_fails_at (resolveUserAgent host uaString) browser
                           || accepts host (resolveUserAgent host uaString) opts
                                browser)
                        (front ++ x :: back) = Some x).
      { apply find_split. exists front, back. split; [reflexivity|].
        split; [rewrite Hx; reflexivity|].
        intros y Hy. destruct (Hfront y Hy) as [-> ->]. reflexivity. }
      rewrite Ef, Hx. reflexivity.
Qed.

Lemma matchesUA_failures_witness :
  matchesUA 0 host_bad_config "Mozilla/5.0" no_options
  = Throw (TypeError "Unknown browser query")
  /\ matchesUA 1 host_inherited_name "Mozilla/5.0" no_options
     = Throw not_a_function.
Proof.
  split.
  - destruct (matchesUA_failures 0 host_bad_config "Mozilla/5.0" no_options)
      as (_ & _ & H & _); [discriminate|].
    apply H. reflexivity.
  - destruct (matchesUA_failures 1 host_inherited_name "Mozilla/5.0" no_options)
      as (_ & _ & _ & H); [discriminate|].
    apply (H [Entry.mk (FInherited "toString") "80"; Entry.mk (FStr "chrome") "80"]);
      [reflexivity|].
    split; [reflexivity|].
    exists [], (Entry.mk (FInherited "toString") "80"),
           [Entry.mk (FStr "chrome") "80"].
    split; [reflexivity|]. split; [reflexivity|]. intros x [].
Defined.

(** X22.  For a UA string that is not empty, and when the family of
    every parsed entry is a string, the answer of [matchesUA] does not
    depend on the order or the multiplicity of the parsed entries: two
    hosts with the same case mappings whose parsed results have the
    same members give the same answer for the same parsed UA. *)
Theorem matchesUA_entry_order
    (fuel : nat) (host host' : Host) (uaString : string) (opts : Options)
    (entries entries' : list Entry.t) :
  uaString <> EmptyString ->
  UAParser host' uaString = UAParser host uaString ->
  (forall s, toLowerCase host' s = toLowerCase host s) ->
  (forall s, toLocaleLowerCase host' s = toLocaleLowerCase host s) ->
  policy_entries fuel host opts = Ok entries ->
  policy_entries fuel host' opts = Ok entries' ->
  forallb string_family entries = true ->
  (forall browser, In browser entries <-> In browser entries') ->
  matchesUA fuel host' uaString opts = matchesUA fuel host uaString opts.
Proof.
  intros Hua Hparser Hlower Hlocale He He' Hstr Hsame.
  assert (Hstr' : forallb string_family entries' = true).
  { apply forallb_forall. intros x Hx.
    apply (proj1 (forallb_forall _ _) Hstr), Hsame, Hx. }
  rewrite (matchesUA_scan_strings fuel host uaString opts entries Hua He Hstr).
  rewrite (matchesUA_scan_strings fuel host' uaString opts entries' Hua He' Hstr').
  f_equal. unfold resolveUserAgent. rewrite Hparser.
  assert (Hacc : forall x,
             accepts host' (resolveParsed (UAParser host uaString)) opts x
             = accepts host (resolveParsed (UAParser host uaString)) opts x).
  { intros x. unfold accepts.
    destruct (Agent.family _); [|reflexivity].
    destruct (Agent.version _); [|reflexivity].
    destruct (Entry.family x); [|reflexivity].
    rewrite Hlower, Hlocale. reflexivity. }
  apply eq_true_iff_eq. rewrite !existsb_exists.
  split; intros (x & Hx & Hx'); exists x;
    (split; [apply Hsame, Hx | rewrite Hacc in *; exact Hx']).
Qed.

Lemma matchesUA_entry_order_witness :
  matchesUA 1 host_chrome_80_reordered "Mozilla/5.0" no_options
  = matchesUA 1 host_chrome_80 "Mozilla/5.0" no_options.
Proof.
  apply (matchesUA_entry_order 1 host_chrome_80 host_chrome_80_reordered
           "Mozilla/5.0" no_options
           [Entry.mk (FStr "firefox") "72"; Entry.mk (FStr "chrome") "80"]
           [Entry.mk (FStr "chrome") "80"; Entry.mk (FStr "firefox") "72"]);
    try reflexivity; [discriminate|].
  intros browser. cbn. tauto.
Defined.

(** X23.  End to end, for a UA string that is not empty and under the
    default options (no flag given): if the query results are obtained
    and parsed, the family of every parsed entry is a string, and some
    parsed entry has a family that
    [toLowerCase] maps to what [toLocaleLowerCase] makes of the
    resolved family, and a version with a minor version below the
    largest safe integer, with the major and minor version of the
    resolved version and a patch version that is not above it, then
    [matchesUA] returns [true]. *)
Theorem matchesUA_default_match
    (fuel : nat) (host : Host) (uaString name family version : string)
    (opts : Options) (entries : list Entry.t) (browser : Entry.t)
    (va vq : Semver.SemVer) :
  uaString <> EmptyString ->
  ignoreMinor opts = None -> ignorePatch opts = None ->
  allowHigherVersions opts = None ->
  policy_entries fuel host opts = Ok entries ->
  forallb string_family entries = true ->
  resolveUserAgent host uaString = Agent.mk (Some family) (Some version) ->
  In browser entries ->
  family_is browser name ->
  toLowerCase host name = toLocaleLowerCase host family ->
  Semver.coerce version = Some va ->
  Semver.coerce (Entry.version browser) = Some vq ->
  (Semver.minor vq < Semver.MAX_SAFE_INTEGER)%N ->
  (Semver.major va = Semver.major vq /\ Semver.minor va = Semver.minor vq
   /\ Semver.patch vq <= Semver.patch va)%N ->
  matchesUA fuel host uaString opts = Ok true.
Proof.
  intros Hua Hminor Hpatch Hhigher Hentries Hstr Hagent Hin Hname Hfam Hva Hvq
         Hmax Hsame.
  rewrite (matchesUA_scan_strings fuel host uaString opts entries Hua Hentries Hstr).
  f_equal. apply existsb_exists. exists browser. split; [exact Hin|].
  apply accepts_spec. exists name, family, version. rewrite Hagent.
  split; [exact Hname|].
  split; [reflexivity|]. split; [reflexivity|]. split; [exact Hfam|].
  rewrite (compareBrowserSemvers_coerced _ _ va vq _ Hva Hvq).
  unfold with_defaults, reference_range.
  cbn [allowHigherVersions ignoreMinor ignorePatch].
  rewrite Hminor, Hpatch, Hhigher. cbn [truthy]. f_equal.
  apply (satisfies_tilde va vq (SemverFacts.coerce_safe _ _ Hva)
           (SemverFacts.coerce_safe _ _ Hvq) Hmax). exact Hsame.
Qed.

Lemma matchesUA_default_match_witness :
  matchesUA 1 host_chrome_80 "Mozilla/5.0" no_options = Ok true.
Proof.
  apply (matchesUA_default_match 1 host_chrome_80 "Mozilla/5.0" "chrome" "Chrome"
           "80.0.3987" no_options
           [Entry.mk (FStr "firefox") "72"; Entry.mk (FStr "chrome") "80"]
           (Entry.mk (FStr "chrome") "80")
           (Semver.mkSemVer 80 0 3987) (Semver.mkSemVer 80 0 0));
    try reflexivity.
  - discriminate.
  - cbn. tauto.
  - repeat split. cbn. lia.
Defined.

(** X24.  [matchesUA] fails closed on the side of the UA: it returns
    [false] for the empty UA string, for every options value and every
    resolver, before anything else is evaluated (so also when the
    resolver would throw); and it returns [false] whenever the query
    results have been obtained and parsed and the resolved agent has a
    null family or a null version, whatever the parsed entries are. *)
Theorem matchesUA_fails_closed
    (fuel : nat) (host : Host) (uaString : string) (opts : Options) :
  (uaString = EmptyString -> matchesUA fuel host uaString opts = Ok false) /\
  (forall entries,
     policy_entries fuel host opts = Ok entries ->
     Agent.family (resolveUserAgent host uaString) = None
     \/ Agent.version (resolveUserAgent host uaString) = None ->
     matchesUA fuel host uaString opts = Ok false).
Proof.
  split.
  - intros ->. apply matchesUA_empty.
  - intros entries. apply matchesUA_unresolved.
Qed.

Lemma matchesUA_fails_closed_witness :
  matchesUA 0 host_bad_config EmptyString no_options = Ok false /\
  matchesUA 4 host_undetected "Mozilla/5.0" no_options = Ok false.
Proof.
  split.
  - apply (proj1 (matchesUA_fails_closed 0 host_bad_config EmptyString no_options)).
    reflexivity.
  - apply (proj2 (matchesUA_fails_closed 4 host_undetected "Mozilla/5.0" no_options)
             [Entry.mk (FStr "Explorer") "11"; Entry.mk (FStr "chrome") "10.0.0";
              Entry.mk (FStr "chrome") "10.1.0"; Entry.mk (FStr "chrome") "10.2.0"]).
    + reflexivity.
    + left. reflexivity.
Defined.
